(** * ARP resolver of the protocol stack: model and verification

    The development embeds the ARP module of the stack (the translation unit
    that defines [arp_rx], [arp_resolve] and the ARP cache) and checks the
    properties stated for it.

    Modelling conventions.
    - An octet is a [byte]; a packet buffer is a [list byte] and its [plen]
      is the length of that list.
    - A [uint16_t] member that holds a wire value is kept as its two octets
      in memory order; [ntoh16]/[hton16] convert between that image and the
      host integer, so no host byte order has to be fixed.
    - The cache is the array [arp_table], a list indexed from 0; a pointer
      to an entry is the index of the entry.
    - Code that runs between [pthread_mutex_lock] and the next unlock or
      wait is one atomic section.  What other threads do while this thread
      does not hold the mutex is a list of atomic sections of theirs.
    - Clock readings, the result of [malloc], the value returned by a device
      transmit and the result of [pthread_cond_timedwait] are inputs.
    - Output (device transmits, the diagnostic warning, condition broadcasts
      and the start of a table patrol) is a list of events.
    - The [DEBUG] dumps are diagnostic output only and are left out. *)

From Stdlib Require Import ZArith Lia.
From Stdlib Require Import Strings.Byte Strings.String.
From stdpp Require Import base decidable option list.

Local Open Scope Z_scope.

(** ** Octets and addresses *)

#[global] Instance byte_eq_dec : EqDecision byte := Byte.byte_eq_dec.

Definition byte_to_Z (b : byte) : Z := Z.of_N (Byte.to_N b).

Definition byte_of_Z (z : Z) : byte :=
  match Byte.of_N (Z.to_N (z mod 256)) with
  | Some b => b
  | None => x00
  end.

(** Modelled from the spec: ethernet.h is not under src/.  A link address
    is 6 octets ([ETHERNET_ADDR_LEN]); the all-zero value denotes
    "unresolved" and the all-ones value denotes broadcast; EtherType
    0x0800 is IPv4 and 0x0806 is ARP. *)
Definition ETHERNET_ADDR_LEN : Z := 6.
Definition eth_addr : Type := (byte * byte * byte * byte * byte * byte)%type.
Definition eth_addr_zero : eth_addr := (x00, x00, x00, x00, x00, x00).
Definition ETHERNET_ADDR_ANY : eth_addr := eth_addr_zero.
Definition ETHERNET_ADDR_BROADCAST : eth_addr := (xff, xff, xff, xff, xff, xff).
Definition ETHERNET_TYPE_IP : Z := 0x0800.
Definition ETHERNET_TYPE_ARP : Z := 0x0806.

(** Modelled from the spec: ip.h is not under src/.  A protocol address is
    an opaque 4-octet value compared by equality ([IP_ADDR_LEN] = 4); it is
    kept as its four octets in memory order, and the C constant 0 is the
    all-zero image. *)
Definition IP_ADDR_LEN : Z := 4.
Definition ip_addr_t : Type := (byte * byte * byte * byte)%type.
Definition ip_addr_zero : ip_addr_t := (x00, x00, x00, x00).

(** [time_t]: seconds since the epoch, a signed integer whose overflow is
    undefined in C; clock values stay far from its limits. *)
Definition time_t : Type := Z.

(** ** Wire format *)

(** Modelled from the spec: util.c (which defines [hton16] and [ntoh16],
    declared in util.h) is not under src/.  All multi-octet integer fields
    are network byte order: the first octet in memory is the high one. *)
Definition wire16 : Type := (byte * byte)%type.

Definition ntoh16 (w : wire16) : Z := 256 * byte_to_Z (fst w) + byte_to_Z (snd w).

Definition hton16 (v : Z) : wire16 := (byte_of_Z (v / 256), byte_of_Z v).

Definition ARP_HRD_ETHERNET : Z := 0x0001.
Definition ARP_OP_REQUEST : Z := 1.
Definition ARP_OP_REPLY : Z := 2.

Record arp_hdr := {
  hrd : wire16;
  pro : wire16;
  hln : byte;
  pln : byte;
  op : wire16
}.

Record arp_ethernet := {
  hdr : arp_hdr;
  sha : eth_addr;
  spa : ip_addr_t;
  tha : eth_addr;
  tpa : ip_addr_t
}.

(** [sizeof(struct arp_ethernet)]: the struct is packed and its header has
    no padding (2+2+1+1+2), so 8+6+4+6+4. *)
Definition sizeof_arp_ethernet : nat := 28.

(** Octet [i] of a buffer.  Only used below [sizeof_arp_ethernet] on
    buffers at least that long. *)
Definition octet (packet : list byte) (i : nat) : byte := nth i packet x00.

(** [(struct arp_ethernet * )packet]: the members read at their offsets. *)
Definition arp_ethernet_cast (packet : list byte) : arp_ethernet :=
  let o := octet packet in
  {| hdr := {| hrd := (o 0%nat, o 1%nat);
               pro := (o 2%nat, o 3%nat);
               hln := o 4%nat;
               pln := o 5%nat;
               op := (o 6%nat, o 7%nat) |};
     sha := (o 8%nat, o 9%nat, o 10%nat, o 11%nat, o 12%nat, o 13%nat);
     spa := (o 14%nat, o 15%nat, o 16%nat, o 17%nat);
     tha := (o 18%nat, o 19%nat, o 20%nat, o 21%nat, o 22%nat, o 23%nat);
     tpa := (o 24%nat, o 25%nat, o 26%nat, o 27%nat) |}.

Definition wire16_bytes (w : wire16) : list byte := [fst w; snd w].

Definition eth_addr_bytes (a : eth_addr) : list byte :=
  let '(a0, a1, a2, a3, a4, a5) := a in [a0; a1; a2; a3; a4; a5].

Definition ip_addr_bytes (a : ip_addr_t) : list byte :=
  let '(a0, a1, a2, a3) := a in [a0; a1; a2; a3].

(** [(uint8_t * )&message] over [sizeof(message)] octets. *)
Definition arp_ethernet_bytes (m : arp_ethernet) : list byte :=
  wire16_bytes (hrd (hdr m)) ++ wire16_bytes (pro (hdr m))
  ++ [hln (hdr m); pln (hdr m)] ++ wire16_bytes (op (hdr m))
  ++ eth_addr_bytes (sha m) ++ ip_addr_bytes (spa m)
  ++ eth_addr_bytes (tha m) ++ ip_addr_bytes (tpa m).

(** The field tuple of a message as the code reads it ([arp_rx] and
    [arp_dump]: [ntoh16] on the 16-bit members, the others as they are). *)
Record arp_fields := {
  f_hrd : Z;
  f_pro : Z;
  f_hln : Z;
  f_pln : Z;
  f_op : Z;
  f_sha : eth_addr;
  f_spa : ip_addr_t;
  f_tha : eth_addr;
  f_tpa : ip_addr_t
}.

Definition arp_decode (packet : list byte) : arp_fields :=
  let message := arp_ethernet_cast packet in
  {| f_hrd := ntoh16 (hrd (hdr message));
     f_pro := ntoh16 (pro (hdr message));
     f_hln := byte_to_Z (hln (hdr message));
     f_pln := byte_to_Z (pln (hdr message));
     f_op := ntoh16 (op (hdr message));
     f_sha := sha message;
     f_spa := spa message;
     f_tha := tha message;
     f_tpa := tpa message |}.

(** The message built from a field tuple as [arp_send_request] and
    [arp_send_reply] build theirs: [hton16] on the 16-bit members. *)
Definition arp_build (f : arp_fields) : arp_ethernet :=
  {| hdr := {| hrd := hton16 (f_hrd f);
               pro := hton16 (f_pro f);
               hln := byte_of_Z (f_hln f);
               pln := byte_of_Z (f_pln f);
               op := hton16 (f_op f) |};
     sha := f_sha f;
     spa := f_spa f;
     tha := f_tha f;
     tpa := f_tpa f |}.

Definition arp_encode (f : arp_fields) : list byte := arp_ethernet_bytes (arp_build f).

(** [arp_opcode_ntop]: the name of the opcode held, in network byte order,
    by a 16-bit member. *)
Definition arp_opcode_ntop (opcode : wire16) : string :=
  if ntoh16 opcode =? ARP_OP_REQUEST then "REQUEST"%string
  else if ntoh16 opcode =? ARP_OP_REPLY then "REPLY"%string
  else "UNKNOWN"%string.

(** ** Devices and interfaces *)

(** [struct netdev]: a device is told apart by its address in memory
    ([dev_id]); [addr] holds its link address in its first 6 octets. *)
Record netdev := {
  dev_id : nat;
  addr : eth_addr
}.

(** [struct netif] with the [unicast] member of [struct netif_ip], to which
    the code casts it.  Modelled from the spec: ip.h, which declares
    [struct netif_ip], is not under src/; for IPv4 the interface record
    carries a unicast protocol address. *)
Record netif_ip := {
  netif_dev : netdev;
  unicast : ip_addr_t
}.

(** ** Observable output *)

Inductive event :=
| EvTx (dev : nat) (type : Z) (packet : list byte) (size : N) (dst : eth_addr)
    (* dev->ops->tx(dev, type, packet, size, dst) *)
| EvWarn
    (* the "receive response from unintended device" warning on stderr *)
| EvBroadcast (i : nat)
    (* pthread_cond_broadcast(&arp_table[i].cond) *)
| EvPatrol (t : time_t).
    (* arp_table_patrol() entered with the global timestamp t *)

#[global] Instance event_eq_dec : EqDecision event.
Proof. solve_decision. Defined.

(** ** The cache *)

Definition ARP_TABLE_SIZE : nat := 4096.
Definition ARP_TABLE_TIMEOUT_SEC : Z := 300.

(** [struct arp_entry].  [used] is only ever assigned 0 or 1.  [data] is
    the malloc'ed copy of the pending payload or NULL; [cond] is the
    condition variable of the slot, named by the slot's index. *)
Record arp_entry := {
  used : bool;
  pa : ip_addr_t;
  ha : eth_addr;
  timestamp : time_t;
  data : option (list byte);
  len : N;
  netif : option netif_ip
}.

(** A slot in static storage before any write. *)
Definition arp_entry_zero : arp_entry :=
  {| used := false; pa := ip_addr_zero; ha := eth_addr_zero; timestamp := 0;
     data := None; len := 0%N; netif := None |}.

(** The static variables [arp_table] and [timestamp] (the mutex is implicit
    in the atomic sections). *)
Record arp_state := {
  arp_table : list arp_entry;
  arp_timestamp : time_t
}.

Definition with_table (st : arp_state) (tbl : list arp_entry) : arp_state :=
  {| arp_table := tbl; arp_timestamp := arp_timestamp st |}.

(** [arp_table_freespace]: the first slot, from index [i] on, that is not
    used. *)
Fixpoint arp_table_freespace_from (i : nat) (tbl : list arp_entry) : option (nat * arp_entry) :=
  match tbl with
  | [] => None
  | entry :: rest =>
      if used entry then arp_table_freespace_from (S i) rest else Some (i, entry)
  end.

Definition arp_table_freespace (tbl : list arp_entry) : option (nat * arp_entry) :=
  arp_table_freespace_from 0 tbl.

(** [arp_table_insert], with [now] the value [time] stores. *)
Definition arp_table_insert (p : ip_addr_t) (h : eth_addr) (now : time_t)
    (tbl : list arp_entry) : list arp_entry * list event * Z :=
  match arp_table_freespace tbl with
  | None => (tbl, [], -1)
  | Some (i, entry) =>
      (<[i := {| used := true; pa := p; ha := h; timestamp := now;
                 data := data entry; len := len entry; netif := netif entry |}]> tbl,
       [EvBroadcast i], 0)
  end.

(** [arp_table_select]: the first used slot, from index [i] on, whose [pa]
    is [p]. *)
Fixpoint arp_table_select_from (i : nat) (p : ip_addr_t) (tbl : list arp_entry)
    : option (nat * arp_entry) :=
  match tbl with
  | [] => None
  | entry :: rest =>
      if used entry && bool_decide (pa entry = p) then Some (i, entry)
      else arp_table_select_from (S i) p rest
  end.

Definition arp_table_select (p : ip_addr_t) (tbl : list arp_entry) : option (nat * arp_entry) :=
  arp_table_select_from 0 p tbl.

(** [arp_table_update].  [None] is the dereference of a NULL
    [entry->netif]; the value the transmit returns is not looked at. *)
Definition arp_table_update (dev : netdev) (p : ip_addr_t) (h : eth_addr) (now : time_t)
    (tbl : list arp_entry) : option (list arp_entry * list event * Z) :=
  match arp_table_select p tbl with
  | None => Some (tbl, [], -1)
  | Some (i, entry) =>
      match data entry with
      | None =>
          Some (<[i := {| used := used entry; pa := pa entry; ha := h; timestamp := now;
                          data := None; len := len entry; netif := netif entry |}]> tbl,
                [EvBroadcast i], 0)
      | Some payload =>
          match netif entry with
          | None => None
          | Some nif =>
              let unintended := negb (bool_decide (dev_id (netif_dev nif) = dev_id dev)) in
              let dev' := if unintended then netif_dev nif else dev in
              Some (<[i := {| used := used entry; pa := pa entry; ha := h; timestamp := now;
                              data := None; len := 0%N; netif := netif entry |}]> tbl,
                    (if unintended then [EvWarn] else [])
                    ++ [EvTx (dev_id dev') ETHERNET_TYPE_IP payload (len entry) h;
                        EvBroadcast i],
                    0)
          end
      end
  end.

(** [arp_entry_clear]. *)
Definition arp_entry_clear (entry : arp_entry) : arp_entry :=
  {| used := false; pa := ip_addr_zero; ha := eth_addr_zero; timestamp := 0;
     data := None;
     len := match data entry with Some _ => 0%N | None => len entry end;
     netif := None |}.

(** [arp_table_patrol] over the slots from index [i] on; [ts] is the global
    [timestamp]. *)
Fixpoint arp_table_patrol_from (ts : time_t) (i : nat) (tbl : list arp_entry)
    : list arp_entry * list event :=
  match tbl with
  | [] => ([], [])
  | entry :: rest =>
      let '(rest', evs) := arp_table_patrol_from ts (S i) rest in
      if used entry && (ts - timestamp entry >? ARP_TABLE_TIMEOUT_SEC)
      then (arp_entry_clear entry :: rest', EvBroadcast i :: evs)
      else (entry :: rest', evs)
  end.

Definition arp_table_patrol (st : arp_state) : arp_state * list event :=
  let '(tbl, evs) := arp_table_patrol_from (arp_timestamp st) 0 (arp_table st) in
  (with_table st tbl, EvPatrol (arp_timestamp st) :: evs).

(** ** ARP communication *)

(** [arp_send_request]; [txr] is the value the device transmit returns.
    [tpa] is never NULL here. *)
Definition arp_send_request (nif : netif_ip) (target : ip_addr_t) (txr : Z) : list event * Z :=
  let request :=
    {| hdr := {| hrd := hton16 ARP_HRD_ETHERNET;
                 pro := hton16 ETHERNET_TYPE_IP;
                 hln := byte_of_Z ETHERNET_ADDR_LEN;
                 pln := byte_of_Z IP_ADDR_LEN;
                 op := hton16 ARP_OP_REQUEST |};
       sha := addr (netif_dev nif);
       spa := unicast nif;
       tha := eth_addr_zero;
       tpa := target |} in
  ([EvTx (dev_id (netif_dev nif)) ETHERNET_TYPE_ARP (arp_ethernet_bytes request)
      (N.of_nat sizeof_arp_ethernet) ETHERNET_ADDR_BROADCAST],
   if txr =? -1 then -1 else 0).

(** [arp_send_reply]; [txr] is the value the device transmit returns. *)
Definition arp_send_reply (nif : netif_ip) (target_ha : eth_addr) (target_pa : ip_addr_t)
    (dst : eth_addr) (txr : Z) : list event * Z :=
  let reply :=
    {| hdr := {| hrd := hton16 ARP_HRD_ETHERNET;
                 pro := hton16 ETHERNET_TYPE_IP;
                 hln := byte_of_Z ETHERNET_ADDR_LEN;
                 pln := byte_of_Z IP_ADDR_LEN;
                 op := hton16 ARP_OP_REPLY |};
       sha := addr (netif_dev nif);
       spa := unicast nif;
       tha := target_ha;
       tpa := target_pa |} in
  ([EvTx (dev_id (netif_dev nif)) ETHERNET_TYPE_ARP (arp_ethernet_bytes reply)
      (N.of_nat sizeof_arp_ethernet) dst],
   if txr <? 0 then -1 else 0).

(** ** Atomic sections *)

(** Modelled from the spec: arp.h is not under src/.  The integer encoding
    of the resolver's result is FOUND = 1, QUERY = 0, ERROR = -1. *)
Definition ARP_RESOLVE_ERROR : Z := -1.
Definition ARP_RESOLVE_QUERY : Z := 0.
Definition ARP_RESOLVE_FOUND : Z := 1.

(** [arp_rx] from [pthread_mutex_lock] to the first unlock: the throttled
    patrol and the merge of the sender binding.  [now] is the clock read by
    [arp_rx], [t] the one read by [arp_table_update].  The boolean is
    [merge]. *)
Definition arp_rx_update (message : arp_ethernet) (dev : netdev) (now t : time_t)
    (st : arp_state) : option (arp_state * list event * bool) :=
  let '(st1, ev1) :=
    if now - arp_timestamp st >? 10
    then arp_table_patrol {| arp_table := arp_table st; arp_timestamp := now |}
    else (st, []) in
  '(tbl2, ev2, r) ← arp_table_update dev (spa message) (sha message) t (arp_table st1);
  Some (with_table st1 tbl2, ev1 ++ ev2, r =? 0).

(** [arp_rx] from the second [pthread_mutex_lock] to its unlock. *)
Definition arp_rx_insert (message : arp_ethernet) (t : time_t) (st : arp_state)
    : arp_state * list event :=
  let '(tbl, ev, _) := arp_table_insert (spa message) (sha message) t (arp_table st) in
  (with_table st tbl, ev).

(** How the locked part of [arp_resolve] that starts at the function's
    entry ends: with a return (the result and, on FOUND, the octets copied
    to the caller's [ha]), or in [pthread_cond_timedwait] on slot [i]. *)
Inductive resolve_step :=
| Return (code : Z) (out_ha : option eth_addr)
| Wait (i : nat).

(** [arp_resolve] from [pthread_mutex_lock] to its first return or wait.
    [buf] is the caller's [data] (NULL is [None]), [malloc_ok] whether
    [malloc] succeeds, [t] the clock read for the new entry and [txr] the
    value the device transmit returns.  [memcpy] takes the first [size]
    octets of the caller's buffer ([size] is the argument [len]). *)
Definition arp_resolve_enter (nif : netif_ip) (p : ip_addr_t) (buf : option (list byte))
    (size : N) (malloc_ok : bool) (t : time_t) (txr : Z) (tbl : list arp_entry)
    : list arp_entry * list event * resolve_step :=
  match arp_table_select p tbl with
  | Some (i, entry) =>
      if bool_decide (ha entry = ETHERNET_ADDR_ANY)
      then (tbl, fst (arp_send_request nif p txr), Wait i)
      else (tbl, [], Return ARP_RESOLVE_FOUND (Some (ha entry)))
  | None =>
      match arp_table_freespace tbl with
      | None => (tbl, [], Return ARP_RESOLVE_ERROR None)
      | Some (i, entry) =>
          let saved :=
            match buf with
            | Some octets =>
                if malloc_ok
                then Some (Some (take (N.to_nat size) octets), size)
                else None
            | None => Some (data entry, len entry)
            end in
          match saved with
          | None =>
              (<[i := {| used := used entry; pa := pa entry; ha := ha entry;
                         timestamp := timestamp entry; data := None;
                         len := len entry; netif := netif entry |}]> tbl,
               [], Return ARP_RESOLVE_ERROR None)
          | Some (d, l) =>
              (<[i := {| used := true; pa := p; ha := ha entry; timestamp := t;
                         data := d; len := l; netif := Some nif |}]> tbl,
               fst (arp_send_request nif p txr), Return ARP_RESOLVE_QUERY None)
          end
      end
  end.

(** What [pthread_cond_timedwait] returns when the loop on EINTR ends:
    0 or ETIMEDOUT. *)
Inductive cond_ret := CondWoken | CondTimedOut.

(** [arp_resolve] from the end of the wait on slot [i] to its return. *)
Definition arp_resolve_wake (i : nat) (ret : cond_ret) (tbl : list arp_entry)
    : list arp_entry * Z * option eth_addr :=
  match tbl !! i with
  | None => (tbl, ARP_RESOLVE_ERROR, None)
  | Some entry =>
      if negb (used entry) || (if ret is CondTimedOut then true else false)
      then ((if used entry then <[i := arp_entry_clear entry]> tbl else tbl),
            ARP_RESOLVE_ERROR, None)
      else (tbl, ARP_RESOLVE_FOUND, Some (ha entry))
  end.

(** The atomic sections a thread can run while another one does not hold
    the mutex. *)
Inductive action :=
| ActRxUpdate (message : arp_ethernet) (dev : netdev) (now t : time_t)
| ActRxInsert (message : arp_ethernet) (t : time_t)
| ActResolveEnter (nif : netif_ip) (p : ip_addr_t) (buf : option (list byte)) (size : N)
    (malloc_ok : bool) (t : time_t) (txr : Z)
| ActResolveWake (i : nat) (ret : cond_ret).

Definition run_action (a : action) (st : arp_state) : option (arp_state * list event) :=
  match a with
  | ActRxUpdate message dev now t =>
      '(st', ev, _) ← arp_rx_update message dev now t st;
      Some (st', ev)
  | ActRxInsert message t => Some (arp_rx_insert message t st)
  | ActResolveEnter nif p buf size malloc_ok t txr =>
      let '(tbl, ev, _) := arp_resolve_enter nif p buf size malloc_ok t txr (arp_table st) in
      Some (with_table st tbl, ev)
  | ActResolveWake i ret =>
      let '(tbl, _, _) := arp_resolve_wake i ret (arp_table st) in
      Some (with_table st tbl, [])
  end.

Fixpoint run_actions (acts : list action) (st : arp_state) : option (arp_state * list event) :=
  match acts with
  | [] => Some (st, [])
  | a :: rest =>
      '(st1, ev1) ← run_action a st;
      '(st2, ev2) ← run_actions rest st1;
      Some (st2, ev1 ++ ev2)
  end.

(** ** ARP interfaces *)

(** [arp_rx].  [now] and [t1] are the clock readings of the first locked
    part, [others] is what other threads do between the unlock and the
    second lock, [nif] is what [netdev_get_netif(dev, NETIF_FAMILY_IPV4)]
    returns, [t2] is the clock read by [arp_table_insert] and [txr] the
    value the transmit of the reply returns.  [None] is the NULL
    dereference of [arp_table_update]. *)
Definition arp_rx (packet : list byte) (dev : netdev) (now t1 : time_t) (others : list action)
    (nif : option netif_ip) (t2 : time_t) (txr : Z) (st : arp_state)
    : option (arp_state * list event) :=
  if (length packet <? sizeof_arp_ethernet)%nat then Some (st, []) else
  let message := arp_ethernet_cast packet in
  if negb (ntoh16 (hrd (hdr message)) =? ARP_HRD_ETHERNET) then Some (st, []) else
  if negb (ntoh16 (pro (hdr message)) =? ETHERNET_TYPE_IP) then Some (st, []) else
  if negb (byte_to_Z (hln (hdr message)) =? ETHERNET_ADDR_LEN) then Some (st, []) else
  if negb (byte_to_Z (pln (hdr message)) =? IP_ADDR_LEN) then Some (st, []) else
  '(st1, ev1, merge) ← arp_rx_update message dev now t1 st;
  match nif with
  | Some n =>
      if bool_decide (unicast n = tpa message)
      then
        '(st2, ev2) ←
          (if (merge : bool) then Some (st1, [])
           else
             '(st', ev') ← run_actions others st1;
             let '(st'', ev'') := arp_rx_insert message t2 st' in
             Some (st'', ev' ++ ev''));
        let ev3 :=
          if ntoh16 (op (hdr message)) =? ARP_OP_REQUEST
          then fst (arp_send_reply n (sha message) (spa message) (sha message) txr)
          else [] in
        Some (st2, ev1 ++ ev2 ++ ev3)
      else Some (st1, ev1)
  | None => Some (st1, ev1)
  end.

(** One wait of [arp_resolve]: the rounds that end in EINTR, each with
    what other threads do during it, then the round that ends the loop. *)
Record wait_trace := {
  interrupted : list (list action);
  woken_after : list action;
  woken_ret : cond_ret
}.

(** [arp_resolve].  The result is the state, the output, the returned code
    and the octets copied to the caller's [ha] (if any). *)
Definition arp_resolve (nif : netif_ip) (p : ip_addr_t) (buf : option (list byte)) (size : N)
    (malloc_ok : bool) (t : time_t) (txr : Z) (w : wait_trace) (st : arp_state)
    : option (arp_state * list event * Z * option eth_addr) :=
  let '(tbl1, ev1, r) := arp_resolve_enter nif p buf size malloc_ok t txr (arp_table st) in
  let st1 := with_table st tbl1 in
  match r with
  | Return code out => Some (st1, ev1, code, out)
  | Wait i =>
      '(st2, ev2) ← run_actions (concat (interrupted w) ++ woken_after w) st1;
      let '(tbl3, code, out) := arp_resolve_wake i (woken_ret w) (arp_table st2) in
      Some (with_table st2 tbl3, ev1 ++ ev2, code, out)
  end.

(** [arp_init]: the table is static storage, [now] is the clock read into
    [timestamp]. *)
Definition arp_init (now : time_t) : arp_state :=
  {| arp_table := replicate ARP_TABLE_SIZE arp_entry_zero; arp_timestamp := now |}.

(** The states the cache can be in between atomic sections. *)
Definition reachable (st : arp_state) : Prop :=
  ∃ now acts evs, run_actions acts (arp_init now) = Some (st, evs).

(** A sequence of [arp_rx] invocations. *)
Record rx_call := {
  rx_packet : list byte;
  rx_dev : netdev;
  rx_now : time_t;
  rx_t1 : time_t;
  rx_others : list action;
  rx_netif : option netif_ip;
  rx_t2 : time_t;
  rx_txr : Z
}.

Fixpoint arp_rx_seq (calls : list rx_call) (st : arp_state) : option (arp_state * list event) :=
  match calls with
  | [] => Some (st, [])
  | c :: rest =>
      '(st1, ev1) ← arp_rx (rx_packet c) (rx_dev c) (rx_now c) (rx_t1 c) (rx_others c)
                       (rx_netif c) (rx_t2 c) (rx_txr c) st;
      '(st2, ev2) ← arp_rx_seq rest st1;
      Some (st2, ev1 ++ ev2)
  end.

(** The times at which patrols were started, in order. *)
Fixpoint patrol_times (evs : list event) : list time_t :=
  match evs with
  | [] => []
  | EvPatrol t :: rest => t :: patrol_times rest
  | _ :: rest => patrol_times rest
  end.

(** Each time in the list is more than 10 seconds after the one before it,
    the first one more than 10 seconds after [last]. *)
Fixpoint spaced (last : time_t) (ts : list time_t) : Prop :=
  match ts with
  | [] => True
  | t :: rest => t - last > 10 ∧ spaced t rest
  end.

(** ** Scenario data

    A host with one device and one IPv4 interface (10.0.0.1 on
    02:00:00:00:00:01), a peer 10.0.0.2 at 02:00:00:00:00:02, and the ARP
    messages they exchange. *)

Definition host_dev : netdev :=
  {| dev_id := 1; addr := (x02, x00, x00, x00, x00, x01) |}.

Definition other_dev : netdev :=
  {| dev_id := 2; addr := (x02, x00, x00, x00, x01, x01) |}.

Definition host_netif : netif_ip :=
  {| netif_dev := host_dev; unicast := (x0a, x00, x00, x01) |}.

Definition peer_pa : ip_addr_t := (x0a, x00, x00, x02).
Definition peer_ha : eth_addr := (x02, x00, x00, x00, x00, x02).

(** REQUEST from the peer for the host's address. *)
Definition peer_request : list byte :=
  [x00; x01; x08; x00; x06; x04; x00; x01;
   x02; x00; x00; x00; x00; x02;  x0a; x00; x00; x02;
   x00; x00; x00; x00; x00; x00;  x0a; x00; x00; x01].

(** REPLY from the peer to the host. *)
Definition peer_reply : list byte :=
  [x00; x01; x08; x00; x06; x04; x00; x02;
   x02; x00; x00; x00; x00; x02;  x0a; x00; x00; x02;
   x02; x00; x00; x00; x00; x01;  x0a; x00; x00; x01].

(** A wait that ends at once, with no other thread running. *)
Definition woken_at_once (ret : cond_ret) : wait_trace :=
  {| interrupted := []; woken_after := []; woken_ret := ret |}.

(** The cache after [arp_init] at time 1000. *)
Definition fresh : arp_state := arp_init 1000.

(** The slot a resolver miss for the peer creates at time [t]. *)
Definition peer_query_entry (t : time_t) : arp_entry :=
  {| used := true; pa := peer_pa; ha := eth_addr_zero; timestamp := t;
     data := None; len := 0%N; netif := Some host_netif |}.

(** The payload 0xDE 0xAD passed to the resolver, and the slot a resolver
    miss for the peer creates with it at time [t]. *)
Definition peer_payload : list byte := [xde; xad].

Definition peer_pending_entry (t : time_t) : arp_entry :=
  {| used := true; pa := peer_pa; ha := eth_addr_zero; timestamp := t;
     data := Some peer_payload; len := 2%N; netif := Some host_netif |}.

(** The cache with the peer's query in flight in slot 0, without and with
    a pending payload. *)
Definition querying : arp_state :=
  with_table fresh (<[0%nat := peer_query_entry 1001]> (arp_table fresh)).

Definition pending : arp_state :=
  with_table fresh (<[0%nat := peer_pending_entry 1001]> (arp_table fresh)).

(** The output of an ARP REQUEST for the peer sent on the host's
    interface. *)
Definition peer_request_sent : list event := fst (arp_send_request host_netif peer_pa 28).

(** The slot [arp_rx] inserts for the peer at time [t], and the cache with
    that slot after the slot of the query in flight. *)
Definition peer_known_entry (t : time_t) : arp_entry :=
  {| used := true; pa := peer_pa; ha := peer_ha; timestamp := t;
     data := None; len := 0%N; netif := None |}.

Definition duplicated : arp_state :=
  with_table fresh
    (<[1%nat := peer_known_entry 1002]> (<[0%nat := peer_query_entry 1001]> (arp_table fresh))).

(** The peer's REPLY delivered on the host's device when the clock reads
    [now], with no other thread running; and three such deliveries. *)
Definition reply_at (now : time_t) : rx_call :=
  {| rx_packet := peer_reply; rx_dev := host_dev; rx_now := now; rx_t1 := now;
     rx_others := []; rx_netif := Some host_netif; rx_t2 := now; rx_txr := 28 |}.

Definition three_replies : list rx_call := [reply_at 1011; reply_at 1015; reply_at 1022].

(** A third host, 10.0.0.3 at 02:00:00:00:00:03, and a REQUEST it sends
    for an address that is not the host's. *)
Definition third_pa : ip_addr_t := (x0a, x00, x00, x03).

Definition third_request : list byte :=
  [x00; x01; x08; x00; x06; x04; x00; x01;
   x02; x00; x00; x00; x00; x03;  x0a; x00; x00; x03;
   x00; x00; x00; x00; x00; x00;  x0a; x00; x00; x09].

(** A wait during which the patrol evicts the slot waited on (at time 1302,
    on delivery of the third host's REQUEST) and another thread's resolver
    miss for the third host takes the slot over, before the waiter runs. *)
Definition woken_by_eviction : wait_trace :=
  {| interrupted := [];
     woken_after := [ActRxUpdate (arp_ethernet_cast third_request) host_dev 1302 1302;
                     ActResolveEnter host_netif third_pa None 0 true 1302 28];
     woken_ret := CondWoken |}.

(** The cache with the peer's binding, learned at time 1002, in slot 0. *)
Definition resolved : arp_state :=
  with_table fresh (<[0%nat := peer_known_entry 1002]> (arp_table fresh)).

(** ** Invariants of the cache *)

(** A slot that is not used is as in static storage; a slot without
    payload has length 0; a slot with a payload has an interface. *)
Definition entry_ok (e : arp_entry) : Prop :=
  (used e = false → e = arp_entry_zero)
  ∧ (data e = None → len e = 0%N)
  ∧ (data e ≠ None → netif e ≠ None).

Definition table_ok (tbl : list arp_entry) : Prop := Forall entry_ok tbl.

(** At most one used slot per protocol address. *)
Definition unique_pa (tbl : list arp_entry) : Prop :=
  ∀ i j ei ej,
    tbl !! i = Some ei → tbl !! j = Some ej →
    used ei = true → used ej = true → pa ei = pa ej → i = j.

(** The global [timestamp] after the patrols of a run that began with
    [timestamp] equal to [start]. *)
Fixpoint last_patrol (start : time_t) (ts : list time_t) : time_t :=
  match ts with
  | [] => start
  | t :: rest => last_patrol t rest
  end.

(** A run from [st] to [st'] with output [evs] keeps the throttle: its
    patrols are spaced, beginning from the global [timestamp] of [st], and
    the global [timestamp] of [st'] is the time of the last one. *)
Definition throttled (st : arp_state) (evs : list event) (st' : arp_state) : Prop :=
  spaced (arp_timestamp st) (patrol_times evs)
  ∧ arp_timestamp st' = last_patrol (arp_timestamp st) (patrol_times evs).

(** The atomic sections other than the Insert of [arp_rx]. *)
Definition not_insert (a : action) : Prop :=
  match a with
  | ActRxInsert _ _ => False
  | _ => True
  end.

(** What the patrol does to one slot when the global [timestamp] is
    [ts]. *)
Definition patrol_entry (ts : time_t) (entry : arp_entry) : arp_entry :=
  if used entry && (ts - timestamp entry >? ARP_TABLE_TIMEOUT_SEC)
  then arp_entry_clear entry
  else entry.

(** * Verification *)

(** ** Wire format *)

Lemma byte_to_Z_range (b : byte) : 0 ≤ byte_to_Z b < 256.
Proof.
  unfold byte_to_Z. pose proof (Byte.to_N_bounded b). lia.
Qed.

Lemma byte_of_to_Z (b : byte) : byte_of_Z (byte_to_Z b) = b.
Proof.
  unfold byte_of_Z. pose proof (byte_to_Z_range b) as Hb.
  rewrite Z.mod_small by lia. unfold byte_to_Z.
  rewrite N2Z.id. by rewrite Byte.of_to_N.
Qed.

Lemma byte_of_Z_mod (z : Z) : byte_of_Z (z mod 256) = byte_of_Z z.
Proof. unfold byte_of_Z. by rewrite Z.mod_mod. Qed.

Lemma hton16_ntoh16 (w : wire16) : hton16 (ntoh16 w) = w.
Proof.
  destruct w as [hi lo]. unfold hton16, ntoh16. simpl.
  pose proof (byte_to_Z_range hi) as Hhi. pose proof (byte_to_Z_range lo) as Hlo.
  f_equal.
  - replace ((256 * byte_to_Z hi + byte_to_Z lo) / 256) with (byte_to_Z hi).
    + apply byte_of_to_Z.
    + apply (Z.div_unique _ 256 _ (byte_to_Z lo)); lia.
  - rewrite <- byte_of_Z_mod.
    replace ((256 * byte_to_Z hi + byte_to_Z lo) mod 256) with (byte_to_Z lo).
    + apply byte_of_to_Z.
    + apply (Z.mod_unique _ 256 (byte_to_Z hi)); lia.
Qed.

Lemma arp_build_decode (packet : list byte) :
  arp_build (arp_decode packet) = arp_ethernet_cast packet.
Proof.
  unfold arp_build, arp_decode. simpl.
  by rewrite !hton16_ntoh16, !byte_of_to_Z.
Qed.

Lemma arp_ethernet_bytes_cast (packet : list byte) :
  length packet = sizeof_arp_ethernet →
  arp_ethernet_bytes (arp_ethernet_cast packet) = packet.
Proof.
  unfold sizeof_arp_ethernet. intros Hlen.
  do 28 (destruct packet as [|? packet]; [discriminate Hlen|]).
  destruct packet; [reflexivity | discriminate Hlen].
Qed.

(** C9: for every 28-octet ARP-over-Ethernet message, re-encoding the
    decoded field tuple gives back the original 28 octets; this holds in
    particular for the well-formed ones (hrd = 1, pro = 0x0800, hln = 6,
    pln = 4). *)
Theorem arp_encode_decode (bytes : list byte) :
  length bytes = sizeof_arp_ethernet →
  arp_encode (arp_decode bytes) = bytes.
Proof.
  intros Hlen. unfold arp_encode.
  rewrite arp_build_decode. by apply arp_ethernet_bytes_cast.
Qed.

Lemma arp_encode_decode_witness :
  length peer_request = sizeof_arp_ethernet ∧
  arp_encode (arp_decode peer_request) = peer_request.
Proof.
  split; [reflexivity | apply (arp_encode_decode peer_request); reflexivity].
Defined.

Lemma arp_ethernet_cast_take (packet : list byte) :
  (sizeof_arp_ethernet ≤ length packet)%nat →
  arp_ethernet_cast (take sizeof_arp_ethernet packet) = arp_ethernet_cast packet.
Proof.
  unfold sizeof_arp_ethernet. intros Hlen.
  do 28 (destruct packet as [|? packet]; [simpl in Hlen; lia|]).
  reflexivity.
Qed.

(** ** Validation in [arp_rx] *)

(** A packet that passes the checks of [arp_rx] goes on to the locked
    part. *)
Lemma arp_rx_valid (packet : list byte) (dev : netdev) (now t1 : time_t)
    (others : list action) (nif : option netif_ip) (t2 : time_t) (txr : Z) (st : arp_state) :
  (28 ≤ length packet)%nat →
  ntoh16 (hrd (hdr (arp_ethernet_cast packet))) = 1 →
  ntoh16 (pro (hdr (arp_ethernet_cast packet))) = 0x0800 →
  byte_to_Z (hln (hdr (arp_ethernet_cast packet))) = 6 →
  byte_to_Z (pln (hdr (arp_ethernet_cast packet))) = 4 →
  arp_rx packet dev now t1 others nif t2 txr st
  = '(st1, ev1, merge) ← arp_rx_update (arp_ethernet_cast packet) dev now t1 st;
    match nif with
    | Some n =>
        if bool_decide (unicast n = tpa (arp_ethernet_cast packet))
        then
          '(st2, ev2) ←
            (if (merge : bool) then Some (st1, [])
             else
               '(st', ev') ← run_actions others st1;
               let '(st'', ev'') := arp_rx_insert (arp_ethernet_cast packet) t2 st' in
               Some (st'', ev' ++ ev''));
          let ev3 :=
            if ntoh16 (op (hdr (arp_ethernet_cast packet))) =? ARP_OP_REQUEST
            then (arp_send_reply n (sha (arp_ethernet_cast packet))
                    (spa (arp_ethernet_cast packet)) (sha (arp_ethernet_cast packet)) txr).1
            else [] in
          Some (st2, ev1 ++ ev2 ++ ev3)
        else Some (st1, ev1)
    | None => Some (st1, ev1)
    end.
Proof.
  intros Hlen Hhrd Hpro Hhln Hpln. unfold arp_rx.
  assert ((length packet <? sizeof_arp_ethernet)%nat = false) as ->
    by (apply Nat.ltb_ge; exact Hlen).
  rewrite Hhrd, Hpro, Hhln, Hpln. reflexivity.
Qed.

(** C7: [arp_rx] drops a packet, with no change of the cache and no
    output, when it is shorter than 28 octets or when hrd is not 1, pro is
    not 0x0800, hln is not 6 or pln is not 4.  A packet of 28 or more
    octets is handled as its first 28 octets are, whatever follows them;
    and when it passes the checks it is processed: the message read from
    its first 28 octets goes through the locked patrol and merge, and
    then, if it is for this host, through the insert and the reply. *)
Theorem arp_rx_validation (packet : list byte) (dev : netdev) (now t1 : time_t)
    (others : list action) (nif : option netif_ip) (t2 : time_t) (txr : Z) (st : arp_state) :
  ((length packet < 28)%nat
   ∨ ntoh16 (hrd (hdr (arp_ethernet_cast packet))) ≠ 1
   ∨ ntoh16 (pro (hdr (arp_ethernet_cast packet))) ≠ 0x0800
   ∨ byte_to_Z (hln (hdr (arp_ethernet_cast packet))) ≠ 6
   ∨ byte_to_Z (pln (hdr (arp_ethernet_cast packet))) ≠ 4 →
   arp_rx packet dev now t1 others nif t2 txr st = Some (st, []))
  ∧ ((28 ≤ length packet)%nat →
     arp_rx packet dev now t1 others nif t2 txr st
     = arp_rx (take 28 packet) dev now t1 others nif t2 txr st)
  ∧ ((28 ≤ length packet)%nat →
     ntoh16 (hrd (hdr (arp_ethernet_cast packet))) = 1 →
     ntoh16 (pro (hdr (arp_ethernet_cast packet))) = 0x0800 →
     byte_to_Z (hln (hdr (arp_ethernet_cast packet))) = 6 →
     byte_to_Z (pln (hdr (arp_ethernet_cast packet))) = 4 →
     arp_rx packet dev now t1 others nif t2 txr st
     = '(st1, ev1, merge) ←
         arp_rx_update (arp_ethernet_cast (take 28 packet)) dev now t1 st;
       match nif with
       | Some n =>
           if bool_decide (unicast n = tpa (arp_ethernet_cast (take 28 packet)))
           then
             '(st2, ev2) ←
               (if (merge : bool) then Some (st1, [])
                else
                  '(st', ev') ← run_actions others st1;
                  let '(st'', ev'') :=
                    arp_rx_insert (arp_ethernet_cast (take 28 packet)) t2 st' in
                  Some (st'', ev' ++ ev''));
             let ev3 :=
               if ntoh16 (op (hdr (arp_ethernet_cast (take 28 packet)))) =? ARP_OP_REQUEST
               then (arp_send_reply n (sha (arp_ethernet_cast (take 28 packet)))
                       (spa (arp_ethernet_cast (take 28 packet)))
                       (sha (arp_ethernet_cast (take 28 packet))) txr).1
               else [] in
             Some (st2, ev1 ++ ev2 ++ ev3)
           else Some (st1, ev1)
       | None => Some (st1, ev1)
       end).
Proof.
  split_and!.
  - intros Hbad. unfold arp_rx.
    destruct (length packet <? sizeof_arp_ethernet)%nat eqn:Hlen; [done|].
    apply Nat.ltb_ge in Hlen. unfold sizeof_arp_ethernet in Hlen.
    unfold ARP_HRD_ETHERNET, ETHERNET_TYPE_IP, ETHERNET_ADDR_LEN, IP_ADDR_LEN.
    destruct (ntoh16 (hrd (hdr (arp_ethernet_cast packet))) =? 1) eqn:Hhrd; [|done].
    destruct (ntoh16 (pro (hdr (arp_ethernet_cast packet))) =? 2048) eqn:Hpro; [|done].
    destruct (byte_to_Z (hln (hdr (arp_ethernet_cast packet))) =? 6) eqn:Hhln; [|done].
    destruct (byte_to_Z (pln (hdr (arp_ethernet_cast packet))) =? 4) eqn:Hpln; [|done].
    apply Z.eqb_eq in Hhrd, Hpro, Hhln, Hpln. lia.
  - intros Hlen. unfold arp_rx.
    change 28%nat with sizeof_arp_ethernet in *.
    rewrite arp_ethernet_cast_take by done.
    rewrite length_take, Nat.min_l by done.
    assert ((length packet <? sizeof_arp_ethernet)%nat = false) as ->
      by (apply Nat.ltb_ge; done).
    assert ((sizeof_arp_ethernet <? sizeof_arp_ethernet)%nat = false) as ->
      by (apply Nat.ltb_irrefl).
    reflexivity.
  - intros Hlen Hhrd Hpro Hhln Hpln.
    change 28%nat with sizeof_arp_ethernet.
    rewrite arp_ethernet_cast_take by done.
    by apply arp_rx_valid.
Qed.

Lemma arp_rx_validation_witness :
  arp_rx (take 27 peer_request) host_dev 1001 1001 [] (Some host_netif) 1002 28 fresh
  = Some (fresh, [])
  ∧ arp_rx (peer_request ++ [xff]) host_dev 1001 1001 [] (Some host_netif) 1002 28 fresh
    = arp_rx (take 28 (peer_request ++ [xff])) host_dev 1001 1001 [] (Some host_netif)
        1002 28 fresh
  ∧ arp_rx (peer_request ++ [xff]) host_dev 1001 1001 [] (Some host_netif) 1002 28 fresh
    = ('(st1, ev1, merge) ←
         arp_rx_update (arp_ethernet_cast (take 28 (peer_request ++ [xff]))) host_dev
           1001 1001 fresh;
       if bool_decide (unicast host_netif
                       = tpa (arp_ethernet_cast (take 28 (peer_request ++ [xff]))))
       then
         '(st2, ev2) ←
           (if (merge : bool) then Some (st1, [])
            else
              '(st', ev') ← run_actions [] st1;
              let '(st'', ev'') :=
                arp_rx_insert (arp_ethernet_cast (take 28 (peer_request ++ [xff]))) 1002
                  st' in
              Some (st'', ev' ++ ev''));
         let ev3 :=
           if ntoh16 (op (hdr (arp_ethernet_cast (take 28 (peer_request ++ [xff])))))
              =? ARP_OP_REQUEST
           then (arp_send_reply host_netif
                   (sha (arp_ethernet_cast (take 28 (peer_request ++ [xff]))))
                   (spa (arp_ethernet_cast (take 28 (peer_request ++ [xff]))))
                   (sha (arp_ethernet_cast (take 28 (peer_request ++ [xff])))) 28).1
           else [] in
         Some (st2, ev1 ++ ev2 ++ ev3)
       else Some (st1, ev1))
  ∧ arp_rx (peer_request ++ [xff]) host_dev 1001 1001 [] (Some host_netif) 1002 28 fresh
    = Some (resolved,
            [EvBroadcast 0]
            ++ (arp_send_reply host_netif peer_ha peer_pa peer_ha 28).1).
Proof.
  split_and!.
  - apply (proj1 (arp_rx_validation (take 27 peer_request) host_dev 1001 1001 []
                    (Some host_netif) 1002 28 fresh)).
    left. simpl. lia.
  - apply (proj1 (proj2 (arp_rx_validation (peer_request ++ [xff]) host_dev 1001 1001 []
                           (Some host_netif) 1002 28 fresh))).
    simpl. lia.
  - apply (proj2 (proj2 (arp_rx_validation (peer_request ++ [xff]) host_dev 1001 1001 []
                           (Some host_netif) 1002 28 fresh))).
    + simpl. lia.
    + reflexivity.
    + reflexivity.
    + reflexivity.
    + reflexivity.
  - rewrite (proj2 (proj2 (arp_rx_validation (peer_request ++ [xff]) host_dev 1001 1001 []
                             (Some host_netif) 1002 28 fresh)));
      [vm_compute; reflexivity | simpl; lia | reflexivity ..].
Defined.

(** ** The two table scans *)

Lemma arp_table_select_from_Some (k : nat) (p : ip_addr_t) (tbl : list arp_entry)
    (i : nat) (e : arp_entry) :
  arp_table_select_from k p tbl = Some (i, e) →
  ∃ j, i = (k + j)%nat ∧ tbl !! j = Some e ∧ used e = true ∧ pa e = p
       ∧ ∀ j' e', (j' < j)%nat → tbl !! j' = Some e' → ¬ (used e' = true ∧ pa e' = p).
Proof.
  revert k. induction tbl as [|x tbl IH]; intros k Hsel; [discriminate|].
  simpl in Hsel.
  destruct (used x && bool_decide (pa x = p)) eqn:Hx.
  - injection Hsel as <- <-.
    apply andb_true_iff in Hx as [Hu Hp]. apply bool_decide_eq_true in Hp.
    exists 0%nat. split_and!; [lia | done | done | done | intros; lia].
  - destruct (IH _ Hsel) as (j & -> & Hj & Hu & Hp & Hfirst).
    exists (S j). split_and!; [lia | done | done | done |].
    intros [|j'] e' Hlt He'; simpl in He'.
    + injection He' as <-. intros [Hu' Hp'].
      rewrite Hu' in Hx. simpl in Hx. apply bool_decide_eq_false in Hx. done.
    + apply (Hfirst j'); [lia | done].
Qed.

Lemma arp_table_select_Some (p : ip_addr_t) (tbl : list arp_entry) (i : nat) (e : arp_entry) :
  arp_table_select p tbl = Some (i, e) →
  tbl !! i = Some e ∧ used e = true ∧ pa e = p
  ∧ ∀ j e', (j < i)%nat → tbl !! j = Some e' → ¬ (used e' = true ∧ pa e' = p).
Proof.
  intros Hsel. apply arp_table_select_from_Some in Hsel as (j & -> & H).
  exact H.
Qed.

Lemma arp_table_select_from_None (k : nat) (p : ip_addr_t) (tbl : list arp_entry) :
  arp_table_select_from k p tbl = None →
  ∀ j e, tbl !! j = Some e → used e = true → pa e ≠ p.
Proof.
  revert k. induction tbl as [|x tbl IH]; intros k Hsel j e He Hu; [done|].
  simpl in Hsel.
  destruct (used x && bool_decide (pa x = p)) eqn:Hx; [discriminate|].
  destruct j as [|j]; simpl in He.
  - injection He as <-. rewrite Hu in Hx. simpl in Hx.
    by apply bool_decide_eq_false in Hx.
  - by apply (IH _ Hsel j).
Qed.

Lemma arp_table_select_None (p : ip_addr_t) (tbl : list arp_entry) :
  arp_table_select p tbl = None →
  ∀ j e, tbl !! j = Some e → used e = true → pa e ≠ p.
Proof. apply arp_table_select_from_None. Qed.

Lemma arp_table_freespace_from_Some (k : nat) (tbl : list arp_entry) (i : nat) (e : arp_entry) :
  arp_table_freespace_from k tbl = Some (i, e) →
  ∃ j, i = (k + j)%nat ∧ tbl !! j = Some e ∧ used e = false
       ∧ ∀ j' e', (j' < j)%nat → tbl !! j' = Some e' → used e' = true.
Proof.
  revert k. induction tbl as [|x tbl IH]; intros k Hfree; [discriminate|].
  simpl in Hfree. destruct (used x) eqn:Hx.
  - destruct (IH _ Hfree) as (j & -> & Hj & Hu & Hfirst).
    exists (S j). split_and!; [lia | done | done |].
    intros [|j'] e' Hlt He'; simpl in He'.
    + by injection He' as <-.
    + apply (Hfirst j'); [lia | done].
  - injection Hfree as <- <-.
    exists 0%nat. split_and!; [lia | done | done | intros; lia].
Qed.

Lemma arp_table_freespace_Some (tbl : list arp_entry) (i : nat) (e : arp_entry) :
  arp_table_freespace tbl = Some (i, e) →
  tbl !! i = Some e ∧ used e = false
  ∧ ∀ j e', (j < i)%nat → tbl !! j = Some e' → used e' = true.
Proof.
  intros Hfree. apply arp_table_freespace_from_Some in Hfree as (j & -> & H).
  exact H.
Qed.

Lemma arp_table_freespace_from_None (k : nat) (tbl : list arp_entry) :
  arp_table_freespace_from k tbl = None →
  ∀ j e, tbl !! j = Some e → used e = true.
Proof.
  revert k. induction tbl as [|x tbl IH]; intros k Hfree j e He; [done|].
  simpl in Hfree. destruct (used x) eqn:Hx; [|discriminate].
  destruct j as [|j]; simpl in He.
  - by injection He as <-.
  - by apply (IH _ Hfree j).
Qed.

(** ** Draining the pending payload *)

(** C6: when [arp_table_update] matches a used entry that holds a pending
    payload, it transmits that payload with EtherType IPv4 to the link
    address just learned, on the device stored in the entry's [netif],
    after a warning when the delivering device is another one; afterwards
    the entry has no payload and length 0. *)
Theorem arp_table_update_drains (dev : netdev) (p : ip_addr_t) (h : eth_addr) (now : time_t)
    (tbl : list arp_entry) (i : nat) (entry : arp_entry) (payload : list byte)
    (nif : netif_ip) :
  arp_table_select p tbl = Some (i, entry) →
  data entry = Some payload →
  netif entry = Some nif →
  ∃ tbl' entry',
    arp_table_update dev p h now tbl
    = Some (tbl',
            (if bool_decide (dev_id (netif_dev nif) = dev_id dev) then [] else [EvWarn])
            ++ [EvTx (dev_id (netif_dev nif)) ETHERNET_TYPE_IP payload (len entry) h;
                EvBroadcast i],
            0)
    ∧ ETHERNET_TYPE_IP = 0x0800
    ∧ used entry = true ∧ pa entry = p
    ∧ tbl' !! i = Some entry'
    ∧ used entry' = true ∧ pa entry' = p ∧ ha entry' = h
    ∧ data entry' = None ∧ len entry' = 0%N.
Proof.
  intros Hsel Hdata Hnif.
  destruct (arp_table_select_Some _ _ _ _ Hsel) as (Hi & Hu & Hp & _).
  unfold arp_table_update. rewrite Hsel, Hdata, Hnif.
  pose (entry' := {| used := used entry; pa := pa entry; ha := h; timestamp := now;
                     data := None; len := 0%N; netif := netif entry |}).
  exists (<[i := entry']> tbl), entry'. split.
  - subst entry'. rewrite Hnif.
    destruct (bool_decide (dev_id (netif_dev nif) = dev_id dev)) eqn:Hdev; simpl.
    + apply bool_decide_eq_true in Hdev. rewrite Hdev. reflexivity.
    + reflexivity.
  - split_and!; try done.
    apply list_lookup_insert_eq. by eapply lookup_lt_Some.
Qed.

Lemma arp_table_update_drains_witness :
  ∃ tbl' entry',
    arp_table_update other_dev peer_pa peer_ha 1002 (arp_table pending)
    = Some (tbl',
            [EvWarn]
            ++ [EvTx 1%nat ETHERNET_TYPE_IP peer_payload 2%N peer_ha; EvBroadcast 0%nat],
            0)
    ∧ ETHERNET_TYPE_IP = 0x0800
    ∧ used (peer_pending_entry 1001) = true ∧ pa (peer_pending_entry 1001) = peer_pa
    ∧ tbl' !! 0%nat = Some entry'
    ∧ used entry' = true ∧ pa entry' = peer_pa ∧ ha entry' = peer_ha
    ∧ data entry' = None ∧ len entry' = 0%N.
Proof.
  apply (arp_table_update_drains other_dev peer_pa peer_ha 1002 (arp_table pending)
           0%nat (peer_pending_entry 1001) peer_payload host_netif);
    vm_compute; reflexivity.
Defined.

(** ** The cache invariant *)

Lemma entry_ok_zero : entry_ok arp_entry_zero.
Proof. unfold entry_ok. split_and!; [done | done | intros H; by destruct H]. Qed.

Lemma entry_ok_used (e : arp_entry) :
  used e = true → (data e = None → len e = 0%N) → (data e ≠ None → netif e ≠ None) →
  entry_ok e.
Proof. intros Hu Hlen Hnif. split_and!; [congruence | done | done]. Qed.

Lemma table_ok_init (now : time_t) : table_ok (arp_table (arp_init now)).
Proof. apply Forall_replicate, entry_ok_zero. Qed.

Lemma table_ok_lookup (tbl : list arp_entry) (i : nat) (e : arp_entry) :
  table_ok tbl → tbl !! i = Some e → entry_ok e.
Proof. intros Hok He. exact (Forall_lookup_1 _ _ _ _ Hok He). Qed.

Lemma arp_entry_clear_zero (e : arp_entry) : entry_ok e → arp_entry_clear e = arp_entry_zero.
Proof.
  intros (_ & Hlen & _). unfold arp_entry_clear, arp_entry_zero.
  destruct (data e) eqn:Hd; [done|]. by rewrite Hlen.
Qed.

Lemma arp_table_insert_ok (p : ip_addr_t) (h : eth_addr) (now : time_t) (tbl : list arp_entry) :
  table_ok tbl → table_ok (arp_table_insert p h now tbl).1.1.
Proof.
  intros Hok. unfold arp_table_insert.
  destruct (arp_table_freespace tbl) as [[i e]|] eqn:Hfree; [|done]. simpl.
  apply Forall_insert; [done|].
  apply arp_table_freespace_Some in Hfree as (Hi & Hu & _).
  destruct (table_ok_lookup _ _ _ Hok Hi) as (Hz & _).
  rewrite (Hz Hu). apply entry_ok_used; simpl; done.
Qed.

Lemma arp_table_update_ok (dev : netdev) (p : ip_addr_t) (h : eth_addr) (now : time_t)
    (tbl : list arp_entry) :
  table_ok tbl →
  ∃ tbl' evs r, arp_table_update dev p h now tbl = Some (tbl', evs, r) ∧ table_ok tbl'.
Proof.
  intros Hok. unfold arp_table_update.
  destruct (arp_table_select p tbl) as [[i e]|] eqn:Hsel; [|by eexists _, _, _].
  apply arp_table_select_Some in Hsel as (Hi & Hu & _).
  destruct (table_ok_lookup _ _ _ Hok Hi) as (_ & Hlen & Hnif).
  destruct (data e) as [payload|] eqn:Hd.
  - destruct (netif e) as [nif|] eqn:Hn; [|by destruct Hnif].
    eexists _, _, _. split; [done|].
    apply Forall_insert; [done|]. apply entry_ok_used; simpl; done.
  - eexists _, _, _. split; [done|].
    apply Forall_insert; [done|]. apply entry_ok_used; simpl; [done | auto | done].
Qed.

Lemma arp_table_patrol_from_ok (ts : time_t) (i : nat) (tbl : list arp_entry) :
  table_ok tbl → table_ok (arp_table_patrol_from ts i tbl).1.
Proof.
  revert i. induction tbl as [|e tbl IH]; intros i Hok; [done|].
  apply Forall_cons in Hok as [He Hok]. specialize (IH (S i) Hok). simpl.
  destruct (arp_table_patrol_from ts (S i) tbl) as [rest' evs].
  destruct (used e && (ts - timestamp e >? ARP_TABLE_TIMEOUT_SEC)); simpl.
  - apply Forall_cons. split; [|done].
    rewrite (arp_entry_clear_zero _ He). apply entry_ok_zero.
  - by apply Forall_cons.
Qed.

Lemma arp_table_patrol_ok (st : arp_state) :
  table_ok (arp_table st) → table_ok (arp_table (arp_table_patrol st).1).
Proof.
  intros Hok. unfold arp_table_patrol.
  pose proof (arp_table_patrol_from_ok (arp_timestamp st) 0 _ Hok) as H.
  destruct (arp_table_patrol_from (arp_timestamp st) 0 (arp_table st)). done.
Qed.

Lemma arp_resolve_enter_ok (nif : netif_ip) (p : ip_addr_t) (buf : option (list byte))
    (size : N) (malloc_ok : bool) (t : time_t) (txr : Z) (tbl : list arp_entry) :
  table_ok tbl →
  table_ok (arp_resolve_enter nif p buf size malloc_ok t txr tbl).1.1.
Proof.
  intros Hok. unfold arp_resolve_enter.
  destruct (arp_table_select p tbl) as [[i e]|] eqn:Hsel.
  { by destruct (bool_decide (ha e = ETHERNET_ADDR_ANY)). }
  destruct (arp_table_freespace tbl) as [[i e]|] eqn:Hfree; [|done].
  apply arp_table_freespace_Some in Hfree as (Hi & Hu & _).
  destruct (table_ok_lookup _ _ _ Hok Hi) as (Hz & _).
  rewrite (Hz Hu).
  destruct buf as [octets|]; [destruct malloc_ok|]; simpl.
  - apply Forall_insert; [done|]. apply entry_ok_used; simpl; done.
  - apply Forall_insert; [done|]. apply entry_ok_zero.
  - apply Forall_insert; [done|]. apply entry_ok_used; simpl; done.
Qed.

Lemma arp_resolve_wake_ok (i : nat) (ret : cond_ret) (tbl : list arp_entry) :
  table_ok tbl → table_ok (arp_resolve_wake i ret tbl).1.1.
Proof.
  intros Hok. unfold arp_resolve_wake.
  destruct (tbl !! i) as [e|] eqn:Hi; [|done].
  pose proof (table_ok_lookup _ _ _ Hok Hi) as He.
  destruct (negb (used e) || (if ret is CondTimedOut then true else false)); [|done].
  destruct (used e); simpl; [|done].
  apply Forall_insert; [done|].
  rewrite (arp_entry_clear_zero _ He). apply entry_ok_zero.
Qed.

Lemma arp_rx_update_ok (message : arp_ethernet) (dev : netdev) (now t : time_t)
    (st : arp_state) :
  table_ok (arp_table st) →
  ∃ st' evs merge,
    arp_rx_update message dev now t st = Some (st', evs, merge) ∧ table_ok (arp_table st').
Proof.
  intros Hok. unfold arp_rx_update.
  destruct (now - arp_timestamp st >? 10).
  - pose proof (arp_table_patrol_ok
                  {| arp_table := arp_table st; arp_timestamp := now |} Hok) as Hp.
    destruct (arp_table_patrol _) as [st1 ev1]. simpl in Hp.
    destruct (arp_table_update_ok dev (spa message) (sha message) t _ Hp)
      as (tbl' & evs & r & -> & Hok').
    simpl. by eexists _, _, _.
  - destruct (arp_table_update_ok dev (spa message) (sha message) t _ Hok)
      as (tbl' & evs & r & -> & Hok').
    simpl. by eexists _, _, _.
Qed.

Lemma arp_rx_insert_ok (message : arp_ethernet) (t : time_t) (st : arp_state) :
  table_ok (arp_table st) → table_ok (arp_table (arp_rx_insert message t st).1).
Proof.
  intros Hok. unfold arp_rx_insert.
  pose proof (arp_table_insert_ok (spa message) (sha message) t _ Hok) as H.
  destruct (arp_table_insert _ _ _ _) as [[tbl ev] r]. done.
Qed.

Lemma run_action_ok (a : action) (st : arp_state) :
  table_ok (arp_table st) →
  ∃ st' evs, run_action a st = Some (st', evs) ∧ table_ok (arp_table st').
Proof.
  intros Hok. destruct a as [message dev now t | message t | nif p buf size ok t txr | i ret];
    simpl.
  - destruct (arp_rx_update_ok message dev now t st Hok) as (st' & evs & m & -> & Hok').
    simpl. by eexists _, _.
  - pose proof (arp_rx_insert_ok message t st Hok).
    destruct (arp_rx_insert message t st). by eexists _, _.
  - pose proof (arp_resolve_enter_ok nif p buf size ok t txr _ Hok) as H.
    destruct (arp_resolve_enter _ _ _ _ _ _ _ _) as [[tbl ev] r]. by eexists _, _.
  - pose proof (arp_resolve_wake_ok i ret _ Hok) as H.
    destruct (arp_resolve_wake _ _ _) as [[tbl c] o]. by eexists _, _.
Qed.

Lemma run_actions_ok (acts : list action) (st : arp_state) :
  table_ok (arp_table st) →
  ∃ st' evs, run_actions acts st = Some (st', evs) ∧ table_ok (arp_table st').
Proof.
  revert st. induction acts as [|a acts IH]; intros st Hok; simpl.
  - by eexists _, _.
  - destruct (run_action_ok a st Hok) as (st1 & ev1 & -> & Hok1). simpl.
    destruct (IH st1 Hok1) as (st2 & ev2 & -> & Hok2). simpl.
    by eexists _, _.
Qed.

Lemma reachable_ok (st : arp_state) : reachable st → table_ok (arp_table st).
Proof.
  intros (now & acts & evs & Hrun).
  destruct (run_actions_ok acts (arp_init now) (table_ok_init now))
    as (st' & evs' & Hrun' & Hok).
  rewrite Hrun in Hrun'. by injection Hrun' as <- <-.
Qed.

Lemma reachable_init (now : time_t) : reachable (arp_init now).
Proof. by exists now, [], []. Qed.

Lemma reachable_step (a : action) (st st' : arp_state) (evs : list event) :
  reachable st → run_action a st = Some (st', evs) → reachable st'.
Proof.
  intros (now & acts & evs0 & Hrun) Hstep.
  exists now, (acts ++ [a]), (evs0 ++ evs ++ []).
  revert Hrun. generalize (arp_init now). revert evs0.
  induction acts as [|b acts IH]; intros evs0 st0 Hrun; simpl in *.
  - injection Hrun as <- <-. rewrite Hstep. done.
  - destruct (run_action b st0) as [[st1 ev1]|]; [|done]. simpl in *.
    destruct (run_actions acts st1) as [[st2 ev2]|] eqn:Hrest; [|done]. simpl in *.
    injection Hrun as <- <-.
    rewrite (IH ev2 st1 Hrest). simpl. by rewrite <- app_assoc.
Qed.

Lemma reachable_run (acts : list action) (st st' : arp_state) (evs : list event) :
  reachable st → run_actions acts st = Some (st', evs) → reachable st'.
Proof.
  revert st evs. induction acts as [|a acts IH]; intros st evs Hst Hrun; simpl in Hrun.
  - by injection Hrun as <- <-.
  - destruct (run_action a st) as [[st1 ev1]|] eqn:Hstep; [|done]. simpl in Hrun.
    destruct (run_actions acts st1) as [[st2 ev2]|] eqn:Hrest; [|done]. simpl in Hrun.
    injection Hrun as <- <-.
    eapply IH; [|exact Hrest]. by eapply reachable_step.
Qed.

(** The API functions stay within the reachable states. *)
Lemma arp_rx_reachable (packet : list byte) (dev : netdev) (now t1 : time_t)
    (others : list action) (nif : option netif_ip) (t2 : time_t) (txr : Z)
    (st st' : arp_state) (evs : list event) :
  reachable st →
  arp_rx packet dev now t1 others nif t2 txr st = Some (st', evs) →
  reachable st'.
Proof.
  intros Hst. unfold arp_rx.
  repeat (match goal with |- context [if ?c then Some (st, []) else _] => destruct c end;
          [intros [= <- <-]; exact Hst|]).
  destruct (arp_rx_update _ dev now t1 st) as [[[st1 ev1] merge]|] eqn:Hupd; [|done].
  assert (reachable st1) as Hst1.
  { apply (reachable_step (ActRxUpdate (arp_ethernet_cast packet) dev now t1) st st1 ev1 Hst).
    simpl. by rewrite Hupd. }
  simpl. destruct nif as [n|]; [|by intros [= <- <-]].
  destruct (bool_decide _); [|by intros [= <- <-]].
  destruct merge; simpl.
  - by intros [= <- <-].
  - destruct (run_actions others st1) as [[st2 ev2]|] eqn:Hoth; [|done]. simpl.
    destruct (arp_rx_insert _ t2 st2) as [st3 ev3] eqn:Hins. simpl.
    intros [= <- <-].
    apply (reachable_step (ActRxInsert (arp_ethernet_cast packet) t2) st2 st3 ev3).
    + by eapply reachable_run.
    + simpl. by rewrite Hins.
Qed.

Lemma arp_resolve_reachable (nif : netif_ip) (p : ip_addr_t) (buf : option (list byte))
    (size : N) (malloc_ok : bool) (t : time_t) (txr : Z) (w : wait_trace)
    (st st' : arp_state) (evs : list event) (code : Z) (out : option eth_addr) :
  reachable st →
  arp_resolve nif p buf size malloc_ok t txr w st = Some (st', evs, code, out) →
  reachable st'.
Proof.
  intros Hst. unfold arp_resolve.
  destruct (arp_resolve_enter nif p buf size malloc_ok t txr (arp_table st))
    as [[tbl1 ev1] r] eqn:Henter.
  assert (reachable (with_table st tbl1)) as Hst1.
  { apply (reachable_step (ActResolveEnter nif p buf size malloc_ok t txr) st _ ev1 Hst).
    simpl. by rewrite Henter. }
  destruct r as [c o|i].
  - by intros [= <- <- <- <-].
  - destruct (run_actions _ (with_table st tbl1)) as [[st2 ev2]|] eqn:Hoth; [|done]. simpl.
    destruct (arp_resolve_wake i (woken_ret w) (arp_table st2)) as [[tbl3 c] o] eqn:Hwake.
    intros [= <- <- <- <-].
    apply (reachable_step (ActResolveWake i (woken_ret w)) st2 _ []).
    + by eapply reachable_run.
    + simpl. by rewrite Hwake.
Qed.

(** The patrol treats every slot on its own. *)
Lemma arp_table_patrol_from_fmap (ts : time_t) (k : nat) (tbl : list arp_entry) :
  (arp_table_patrol_from ts k tbl).1 = patrol_entry ts <$> tbl.
Proof.
  revert k. induction tbl as [|e tbl IH]; intros k; [done|]. simpl.
  specialize (IH (S k)). destruct (arp_table_patrol_from ts (S k) tbl) as [rest' evs].
  simpl in IH. subst rest'. unfold patrol_entry.
  by destruct (used e && (ts - timestamp e >? ARP_TABLE_TIMEOUT_SEC)).
Qed.

(** The table keeps its [ARP_TABLE_SIZE] slots. *)
Lemma run_action_length (a : action) (st st' : arp_state) (evs : list event) :
  run_action a st = Some (st', evs) → length (arp_table st') = length (arp_table st).
Proof.
  destruct a as [message dev now t | message t | nif p buf size ok t txr | i ret]; simpl.
  - unfold arp_rx_update, arp_table_patrol.
    assert (∀ tbl tbl' ev r,
              arp_table_update dev (spa message) (sha message) t tbl = Some (tbl', ev, r) →
              length tbl' = length tbl) as Hupd.
    { intros tbl tbl' ev r. unfold arp_table_update.
      destruct (arp_table_select _ tbl) as [[i e]|]; [|by intros [= <- <- <-]].
      destruct (data e); [destruct (netif e); [|done]|];
        intros [= <- <- <-]; apply length_insert. }
    destruct (now - arp_timestamp st >? 10); simpl.
    + pose proof (arp_table_patrol_from_fmap now 0 (arp_table st)) as Hp.
      destruct (arp_table_patrol_from now 0 (arp_table st)) as [tbl1 ev1]. simpl in *.
      destruct (arp_table_update _ _ _ _ tbl1) as [[[tbl2 ev2] r]|] eqn:H2; [|done].
      simpl. intros [= <- <-]. simpl.
      rewrite (Hupd _ _ _ _ H2), Hp. apply length_fmap.
    + destruct (arp_table_update _ _ _ _ _) as [[[tbl2 ev2] r]|] eqn:H2; [|done].
      simpl. intros [= <- <-]. simpl. by apply (Hupd _ _ _ _ H2).
  - unfold arp_rx_insert, arp_table_insert.
    destruct (arp_table_freespace _) as [[i e]|]; intros [= <- <-]; simpl; [|done].
    apply length_insert.
  - unfold arp_resolve_enter.
    destruct (arp_table_select _ _) as [[i e]|].
    { destruct (bool_decide _); by intros [= <- <-]. }
    destruct (arp_table_freespace _) as [[i e]|]; [|by intros [= <- <-]].
    destruct buf as [octets|]; [destruct ok|]; intros [= <- <-]; apply length_insert.
  - unfold arp_resolve_wake.
    destruct (arp_table st !! i) as [e|]; [|by intros [= <- <-]].
    destruct (negb (used e) || _); [|by intros [= <- <-]].
    destruct (used e); intros [= <- <-]; simpl; [|done]. apply length_insert.
Qed.

Lemma reachable_length (st : arp_state) :
  reachable st → length (arp_table st) = ARP_TABLE_SIZE.
Proof.
  intros (now & acts & evs & Hrun).
  assert (length (arp_table (arp_init now)) = ARP_TABLE_SIZE) as Hinit
    by apply length_replicate.
  revert Hrun Hinit. generalize (arp_init now). revert evs.
  induction acts as [|a acts IH]; intros evs st0 Hrun Hlen; simpl in Hrun.
  - by injection Hrun as <- <-.
  - destruct (run_action a st0) as [[st1 ev1]|] eqn:Hstep; [|done]. simpl in Hrun.
    destruct (run_actions acts st1) as [[st2 ev2]|] eqn:Hrest; [|done]. simpl in Hrun.
    injection Hrun as <- <-.
    apply (IH ev2 st1 Hrest). by rewrite (run_action_length _ _ _ _ Hstep).
Qed.

(** ** Pending payloads have an interface *)

(** C10: in every reachable cache state an entry whose pending-payload
    pointer is not NULL has a [netif] that is not NULL, so
    [arp_table_update] never dereferences a NULL [entry->netif] when it
    drains a payload. *)
Theorem pending_payload_has_netif (st : arp_state) :
  reachable st →
  (∀ i e, arp_table st !! i = Some e → data e ≠ None → netif e ≠ None)
  ∧ (∀ dev p h now, arp_table_update dev p h now (arp_table st) ≠ None).
Proof.
  intros Hst. apply reachable_ok in Hst. split.
  - intros i e He. by destruct (table_ok_lookup _ _ _ Hst He) as (_ & _ & Hnif).
  - intros dev p h now.
    by destruct (arp_table_update_ok dev p h now _ Hst) as (tbl' & evs & r & -> & _).
Qed.

Lemma reachable_pending : reachable pending.
Proof.
  exists 1000, [ActResolveEnter host_netif peer_pa (Some peer_payload) 2 true 1001 28],
    (peer_request_sent ++ []).
  vm_compute. reflexivity.
Defined.

Lemma pending_payload_has_netif_witness :
  reachable pending
  ∧ (∀ i e, arp_table pending !! i = Some e → data e ≠ None → netif e ≠ None)
  ∧ (∀ dev p h now, arp_table_update dev p h now (arp_table pending) ≠ None).
Proof.
  split; [exact reachable_pending | exact (pending_payload_has_netif pending reachable_pending)].
Defined.

(** ** The resolver on a miss *)

Lemma arp_table_select_not_used (p : ip_addr_t) (tbl : list arp_entry) :
  (∀ j e, tbl !! j = Some e → used e = true → pa e ≠ p) →
  arp_table_select p tbl = None.
Proof.
  intros Hno. destruct (arp_table_select p tbl) as [[i e]|] eqn:Hsel; [|done].
  apply arp_table_select_Some in Hsel as (Hi & Hu & Hp & _).
  by destruct (Hno i e Hi Hu).
Qed.

Lemma arp_table_freespace_free (tbl : list arp_entry) (j : nat) (e : arp_entry) :
  tbl !! j = Some e → used e = false →
  ∃ i e', arp_table_freespace tbl = Some (i, e').
Proof.
  intros Hj Hu. destruct (arp_table_freespace tbl) as [[i e']|] eqn:Hfree.
  - by eexists _, _.
  - pose proof (arp_table_freespace_from_None _ _ Hfree j e Hj). congruence.
Qed.

(** C1: a call [arp_resolve(netif, pa, out_ha, NULL, 0)] on a cache state
    with no used entry for [pa] and at least one free slot returns QUERY
    (which is 0), and afterwards exactly one entry is used with that [pa];
    its [ha] is the all-zero link address and it holds no pending payload
    ([data] NULL, [len] 0). *)
Theorem arp_resolve_miss_query (nif : netif_ip) (p : ip_addr_t) (malloc_ok : bool)
    (t : time_t) (txr : Z) (w : wait_trace) (st : arp_state) :
  reachable st →
  (∀ j e, arp_table st !! j = Some e → used e = true → pa e ≠ p) →
  (∃ j e, arp_table st !! j = Some e ∧ used e = false) →
  ∃ st' evs i entry,
    arp_resolve nif p None 0 malloc_ok t txr w st = Some (st', evs, ARP_RESOLVE_QUERY, None)
    ∧ ARP_RESOLVE_QUERY = 0
    ∧ arp_table st' !! i = Some entry
    ∧ used entry = true ∧ pa entry = p ∧ ha entry = ETHERNET_ADDR_ANY
    ∧ data entry = None ∧ len entry = 0%N
    ∧ ∀ j e, arp_table st' !! j = Some e → used e = true → pa e = p → j = i.
Proof.
  intros Hst Hno (j0 & e0 & Hj0 & Hu0).
  apply reachable_ok in Hst.
  pose proof (arp_table_select_not_used p _ Hno) as Hsel.
  destruct (arp_table_freespace_free _ j0 e0 Hj0 Hu0) as (i & e & Hfree).
  destruct (arp_table_freespace_Some _ _ _ Hfree) as (Hi & Hu & _).
  destruct (table_ok_lookup _ _ _ Hst Hi) as (Hz & _). specialize (Hz Hu). subst e.
  unfold arp_resolve, arp_resolve_enter. rewrite Hsel, Hfree. simpl.
  eexists _, _, i, _. split; [reflexivity|]. simpl.
  split; [done|]. split.
  { apply list_lookup_insert_eq. by eapply lookup_lt_Some. }
  split_and!; try done.
  intros j e Hj Hue Hpe.
  destruct (decide (j = i)) as [|Hne]; [done|].
  rewrite list_lookup_insert_ne in Hj by done.
  by destruct (Hno j e Hj Hue).
Qed.

Lemma arp_resolve_miss_query_witness :
  ∃ st' evs i entry,
    arp_resolve host_netif peer_pa None 0 true 1001 28 (woken_at_once CondWoken) fresh
    = Some (st', evs, ARP_RESOLVE_QUERY, None)
    ∧ ARP_RESOLVE_QUERY = 0
    ∧ arp_table st' !! i = Some entry
    ∧ used entry = true ∧ pa entry = peer_pa ∧ ha entry = ETHERNET_ADDR_ANY
    ∧ data entry = None ∧ len entry = 0%N
    ∧ ∀ j e, arp_table st' !! j = Some e → used e = true → pa e = peer_pa → j = i.
Proof.
  apply (arp_resolve_miss_query host_netif peer_pa true 1001 28 (woken_at_once CondWoken) fresh).
  - apply reachable_init.
  - intros j e Hj Hu. apply lookup_replicate in Hj as [-> _]. discriminate Hu.
  - exists 0%nat, arp_entry_zero. split; reflexivity.
Defined.

(** ** The patrol throttle *)

Lemma patrol_times_app (ev1 ev2 : list event) :
  patrol_times (ev1 ++ ev2) = patrol_times ev1 ++ patrol_times ev2.
Proof.
  induction ev1 as [|e ev1 IH]; [done|].
  destruct e; simpl; by rewrite IH.
Qed.

Lemma spaced_app (start : time_t) (l1 l2 : list time_t) :
  spaced start l1 → spaced (last_patrol start l1) l2 → spaced start (l1 ++ l2).
Proof.
  revert start. induction l1 as [|t l1 IH]; intros start H1 H2; simpl in *; [done|].
  destruct H1 as [Ht H1]. split; [done|]. by apply IH.
Qed.

Lemma last_patrol_app (start : time_t) (l1 l2 : list time_t) :
  last_patrol start (l1 ++ l2) = last_patrol (last_patrol start l1) l2.
Proof.
  revert start. induction l1 as [|t l1 IH]; intros start; simpl; [done|]. apply IH.
Qed.

Lemma throttled_refl (st : arp_state) : throttled st [] st.
Proof. by split. Qed.

Lemma throttled_trans (st st1 st2 : arp_state) (ev1 ev2 : list event) :
  throttled st ev1 st1 → throttled st1 ev2 st2 → throttled st (ev1 ++ ev2) st2.
Proof.
  intros [Hs1 Ht1] [Hs2 Ht2]. unfold throttled.
  rewrite patrol_times_app, last_patrol_app, <- Ht1. split; [|done].
  apply spaced_app; [done|]. by rewrite <- Ht1.
Qed.

(** Output without patrols, from a state with the same global
    [timestamp]. *)
Lemma throttled_quiet (st st' : arp_state) (evs : list event) :
  patrol_times evs = [] → arp_timestamp st' = arp_timestamp st → throttled st evs st'.
Proof. intros Hev Hts. unfold throttled. rewrite Hev. by split. Qed.

Lemma arp_table_patrol_from_quiet (ts : time_t) (i : nat) (tbl : list arp_entry) :
  patrol_times (arp_table_patrol_from ts i tbl).2 = [].
Proof.
  revert i. induction tbl as [|e tbl IH]; intros i; [done|]. simpl.
  specialize (IH (S i)). destruct (arp_table_patrol_from ts (S i) tbl) as [rest' evs].
  by destruct (used e && (ts - timestamp e >? ARP_TABLE_TIMEOUT_SEC)).
Qed.

Lemma arp_table_update_quiet (dev : netdev) (p : ip_addr_t) (h : eth_addr) (now : time_t)
    (tbl tbl' : list arp_entry) (evs : list event) (r : Z) :
  arp_table_update dev p h now tbl = Some (tbl', evs, r) → patrol_times evs = [].
Proof.
  unfold arp_table_update.
  destruct (arp_table_select p tbl) as [[i e]|]; [|by intros [= <- <- <-]].
  destruct (data e); [|by intros [= <- <- <-]].
  destruct (netif e) as [nif|]; [|done].
  intros [= <- <- <-].
  by destruct (negb (bool_decide (dev_id (netif_dev nif) = dev_id dev))).
Qed.

Lemma arp_table_insert_quiet (p : ip_addr_t) (h : eth_addr) (now : time_t)
    (tbl : list arp_entry) :
  patrol_times (arp_table_insert p h now tbl).1.2 = [].
Proof.
  unfold arp_table_insert. by destruct (arp_table_freespace tbl) as [[i e]|].
Qed.

Lemma arp_resolve_enter_quiet (nif : netif_ip) (p : ip_addr_t) (buf : option (list byte))
    (size : N) (malloc_ok : bool) (t : time_t) (txr : Z) (tbl : list arp_entry) :
  patrol_times (arp_resolve_enter nif p buf size malloc_ok t txr tbl).1.2 = [].
Proof.
  unfold arp_resolve_enter.
  destruct (arp_table_select p tbl) as [[i e]|].
  { by destruct (bool_decide (ha e = ETHERNET_ADDR_ANY)). }
  destruct (arp_table_freespace tbl) as [[i e]|]; [|done].
  by destruct buf as [octets|]; [destruct malloc_ok|].
Qed.

(** [arp_rx] runs the patrol only when [now - timestamp > 10], after it has
    set [timestamp] to [now]. *)
Lemma arp_rx_update_patrol (message : arp_ethernet) (dev : netdev) (now t : time_t)
    (st st' : arp_state) (evs : list event) (merge : bool) :
  arp_rx_update message dev now t st = Some (st', evs, merge) →
  patrol_times evs = (if now - arp_timestamp st >? 10 then [now] else [])
  ∧ arp_timestamp st' = (if now - arp_timestamp st >? 10 then now else arp_timestamp st).
Proof.
  unfold arp_rx_update, arp_table_patrol.
  destruct (now - arp_timestamp st >? 10); simpl.
  - pose proof (arp_table_patrol_from_quiet now 0 (arp_table st)) as Hq.
    destruct (arp_table_patrol_from now 0 (arp_table st)) as [tbl1 ev1]. simpl in *.
    destruct (arp_table_update _ _ _ _ _) as [[[tbl2 ev2] r]|] eqn:Hupd; [|done].
    simpl. intros [= <- <- <-]. simpl.
    rewrite patrol_times_app, Hq.
    by rewrite (arp_table_update_quiet _ _ _ _ _ _ _ _ Hupd).
  - destruct (arp_table_update _ _ _ _ _) as [[[tbl2 ev2] r]|] eqn:Hupd; [|done].
    simpl. intros [= <- <- <-].
    by rewrite (arp_table_update_quiet _ _ _ _ _ _ _ _ Hupd).
Qed.

Lemma arp_rx_update_throttled (message : arp_ethernet) (dev : netdev) (now t : time_t)
    (st st' : arp_state) (evs : list event) (merge : bool) :
  arp_rx_update message dev now t st = Some (st', evs, merge) → throttled st evs st'.
Proof.
  intros Hupd. apply arp_rx_update_patrol in Hupd as [Hev Hts].
  unfold throttled. rewrite Hev, Hts.
  destruct (now - arp_timestamp st >? 10) eqn:Hgt; simpl; [|done].
  apply Z.gtb_lt in Hgt. split_and!; [lia | done | done].
Qed.

Lemma arp_rx_insert_throttled (message : arp_ethernet) (t : time_t) (st : arp_state) :
  throttled st (arp_rx_insert message t st).2 (arp_rx_insert message t st).1.
Proof.
  unfold arp_rx_insert.
  pose proof (arp_table_insert_quiet (spa message) (sha message) t (arp_table st)) as Hq.
  destruct (arp_table_insert _ _ _ _) as [[tbl ev] r]. by apply throttled_quiet.
Qed.

Lemma run_action_throttled (a : action) (st st' : arp_state) (evs : list event) :
  run_action a st = Some (st', evs) → throttled st evs st'.
Proof.
  destruct a as [message dev now t | message t | nif p buf size ok t txr | i ret]; simpl.
  - destruct (arp_rx_update message dev now t st) as [[[st1 ev1] m]|] eqn:Hupd; [|done].
    simpl. intros [= <- <-]. by eapply arp_rx_update_throttled.
  - intros [= Hins]. pose proof (arp_rx_insert_throttled message t st) as H.
    by rewrite Hins in H.
  - pose proof (arp_resolve_enter_quiet nif p buf size ok t txr (arp_table st)) as Hq.
    destruct (arp_resolve_enter _ _ _ _ _ _ _ _) as [[tbl ev] r].
    intros [= <- <-]. by apply throttled_quiet.
  - destruct (arp_resolve_wake _ _ _) as [[tbl c] o].
    intros [= <- <-]. by apply throttled_quiet.
Qed.

Lemma run_actions_throttled (acts : list action) (st st' : arp_state) (evs : list event) :
  run_actions acts st = Some (st', evs) → throttled st evs st'.
Proof.
  revert st evs. induction acts as [|a acts IH]; intros st evs; simpl.
  - intros [= <- <-]. apply throttled_refl.
  - destruct (run_action a st) as [[st1 ev1]|] eqn:Hstep; [|done]. simpl.
    destruct (run_actions acts st1) as [[st2 ev2]|] eqn:Hrest; [|done]. simpl.
    intros [= <- <-].
    eapply throttled_trans; [by eapply run_action_throttled | by apply IH].
Qed.

Lemma arp_rx_throttled (packet : list byte) (dev : netdev) (now t1 : time_t)
    (others : list action) (nif : option netif_ip) (t2 : time_t) (txr : Z)
    (st st' : arp_state) (evs : list event) :
  arp_rx packet dev now t1 others nif t2 txr st = Some (st', evs) → throttled st evs st'.
Proof.
  unfold arp_rx.
  repeat (match goal with |- context [if ?c then Some (st, []) else _] => destruct c end;
          [intros [= <- <-]; apply throttled_refl|]).
  destruct (arp_rx_update _ dev now t1 st) as [[[st1 ev1] merge]|] eqn:Hupd; [|done].
  apply arp_rx_update_throttled in Hupd. simpl.
  destruct nif as [n|]; [|by intros [= <- <-]].
  destruct (bool_decide _); [|by intros [= <- <-]].
  assert (∀ ev3, patrol_times ev3 = [] → ∀ st2 ev2,
            throttled st1 ev2 st2 → throttled st (ev1 ++ ev2 ++ ev3) st2) as Hend.
  { intros ev3 Hq st2 ev2 H2.
    eapply throttled_trans; [exact Hupd|].
    eapply throttled_trans; [exact H2|]. by apply throttled_quiet. }
  assert (patrol_times
            (if ntoh16 (op (hdr (arp_ethernet_cast packet))) =? ARP_OP_REQUEST
             then (arp_send_reply n (sha (arp_ethernet_cast packet))
                     (spa (arp_ethernet_cast packet)) (sha (arp_ethernet_cast packet)) txr).1
             else []) = []) as Hq.
  { by destruct (_ =? _). }
  destruct merge; simpl.
  - intros [= <- <-]. apply (Hend _ Hq st1 []). apply throttled_refl.
  - destruct (run_actions others st1) as [[st2 ev2]|] eqn:Hoth; [|done]. simpl.
    pose proof (arp_rx_insert_throttled (arp_ethernet_cast packet) t2 st2) as Hins.
    destruct (arp_rx_insert _ t2 st2) as [st3 ev3]. simpl in *.
    intros [= <- <-]. apply (Hend _ Hq).
    eapply throttled_trans; [by eapply run_actions_throttled | exact Hins].
Qed.

Lemma arp_rx_seq_throttled (calls : list rx_call) (st st' : arp_state) (evs : list event) :
  arp_rx_seq calls st = Some (st', evs) → throttled st evs st'.
Proof.
  revert st evs. induction calls as [|c calls IH]; intros st evs; simpl.
  - intros [= <- <-]. apply throttled_refl.
  - destruct (arp_rx _ _ _ _ _ _ _ _ st) as [[st1 ev1]|] eqn:Hrx; [|done]. simpl.
    destruct (arp_rx_seq calls st1) as [[st2 ev2]|] eqn:Hrest; [|done]. simpl.
    intros [= <- <-].
    eapply throttled_trans; [by eapply arp_rx_throttled | by apply IH].
Qed.

Lemma spaced_after (start : time_t) (ts : list time_t) (j : nat) (tj : time_t) :
  spaced start ts → ts !! j = Some tj → tj - start > 10.
Proof.
  revert start j. induction ts as [|t ts IH]; intros start j Hs Hj; [done|].
  destruct Hs as [Ht Hs]. destruct j as [|j]; simpl in Hj.
  - injection Hj as <-. done.
  - specialize (IH t j Hs Hj). lia.
Qed.

Lemma spaced_pairwise (start : time_t) (ts : list time_t) (i j : nat) (ti tj : time_t) :
  spaced start ts → (i < j)%nat → ts !! i = Some ti → ts !! j = Some tj → tj - ti > 10.
Proof.
  revert start i j. induction ts as [|t ts IH]; intros start i j Hs Hij Hi Hj; [done|].
  destruct Hs as [Ht Hs]. destruct j as [|j]; [lia|]. simpl in Hj.
  destruct i as [|i]; simpl in Hi.
  - injection Hi as <-. by eapply spaced_after.
  - apply (IH t i j Hs); [lia | done | done].
Qed.

(** C8: [arp_rx] runs the patrol only when [now - timestamp] exceeds 10
    seconds, with the global [timestamp] set to [now] before it (the time
    of a patrol is the global [timestamp] it reads); so in any sequence of
    [arp_rx] invocations every patrol starts more than 10 seconds after
    the one before it, and any two patrols are more than 10 seconds
    apart. *)
Theorem arp_rx_patrols_spaced (calls : list rx_call) (st st' : arp_state) (evs : list event) :
  arp_rx_seq calls st = Some (st', evs) →
  spaced (arp_timestamp st) (patrol_times evs)
  ∧ arp_timestamp st' = last_patrol (arp_timestamp st) (patrol_times evs)
  ∧ ∀ i j ti tj,
      (i < j)%nat → patrol_times evs !! i = Some ti → patrol_times evs !! j = Some tj →
      tj - ti > 10.
Proof.
  intros Hrun. apply arp_rx_seq_throttled in Hrun as [Hs Hts].
  split_and!; [done | done |].
  intros i j ti tj. by apply spaced_pairwise with (arp_timestamp st).
Qed.

Lemma arp_rx_patrols_spaced_witness :
  ∃ st' evs,
    arp_rx_seq three_replies fresh = Some (st', evs)
    ∧ patrol_times evs = [1011; 1022]
    ∧ spaced (arp_timestamp fresh) (patrol_times evs)
    ∧ arp_timestamp st' = last_patrol (arp_timestamp fresh) (patrol_times evs)
    ∧ ∀ i j ti tj,
        (i < j)%nat → patrol_times evs !! i = Some ti → patrol_times evs !! j = Some tj →
        tj - ti > 10.
Proof.
  destruct (arp_rx_seq three_replies fresh) as [[st' evs]|] eqn:Hrun.
  - exists st', evs. split; [reflexivity|]. split.
    + assert (patrol_times <$> (snd <$> arp_rx_seq three_replies fresh)
              = Some [1011; 1022]) as Hev by (vm_compute; reflexivity).
      rewrite Hrun in Hev. by injection Hev.
    + exact (arp_rx_patrols_spaced three_replies fresh st' evs Hrun).
  - exfalso.
    assert (is_Some (arp_rx_seq three_replies fresh)) as [? Hev]
      by (vm_compute; eexists; reflexivity).
    congruence.
Defined.

(** ** The resolver's wait *)

(** Without a wait, FOUND comes with a link address that is not all-zero. *)
Lemma arp_resolve_enter_found (nif : netif_ip) (p : ip_addr_t) (buf : option (list byte))
    (size : N) (malloc_ok : bool) (t : time_t) (txr : Z) (tbl tbl' : list arp_entry)
    (evs : list event) (out : option eth_addr) :
  arp_resolve_enter nif p buf size malloc_ok t txr tbl
  = (tbl', evs, Return ARP_RESOLVE_FOUND out) →
  ∃ h, out = Some h ∧ h ≠ ETHERNET_ADDR_ANY.
Proof.
  unfold arp_resolve_enter.
  destruct (arp_table_select p tbl) as [[i e]|].
  - destruct (bool_decide (ha e = ETHERNET_ADDR_ANY)) eqn:Hha; [done|].
    apply bool_decide_eq_false in Hha. intros [= <- <- <-]. by exists (ha e).
  - destruct (arp_table_freespace tbl) as [[i e]|]; [|done].
    by destruct buf as [octets|]; [destruct malloc_ok|].
Qed.

(** C2 (the code departs from it): after a miss has put the peer's query in
    flight, a second [arp_resolve] for the peer whose wait is woken before
    the deadline while the entry is unchanged (no reply has arrived)
    returns FOUND and copies the all-zero link address to the caller. *)
Theorem arp_resolve_woken_found_unresolved :
  arp_resolve host_netif peer_pa None 0 true 1001 28 (woken_at_once CondWoken) fresh
  = Some (querying, peer_request_sent, ARP_RESOLVE_QUERY, None)
  ∧ arp_resolve host_netif peer_pa None 0 true 1002 28 (woken_at_once CondWoken) querying
    = Some (querying, peer_request_sent, ARP_RESOLVE_FOUND, Some ETHERNET_ADDR_ANY)
  ∧ ETHERNET_ADDR_ANY = eth_addr_zero.
Proof. split_and!; vm_compute; reflexivity. Qed.

(** The same result after a broadcast that was meant for the waiter: the
    patrol evicts the slot and broadcasts, another resolver miss reuses the
    slot for a different address, and the waiter then finds the slot used
    and returns FOUND with the all-zero address. *)
Lemma arp_resolve_woken_on_reused_slot :
  ∃ st evs,
    arp_resolve host_netif peer_pa None 0 true 1301 28 woken_by_eviction querying
    = Some (st, evs, ARP_RESOLVE_FOUND, Some ETHERNET_ADDR_ANY)
    ∧ EvBroadcast 0 ∈ evs
    ∧ (pa <$> (arp_table st !! 0%nat)) = Some third_pa.
Proof.
  destruct (arp_resolve host_netif peer_pa None 0 true 1301 28 woken_by_eviction querying)
    as [[[[st evs] code] out]|] eqn:Hres.
  - assert ((λ r, (r.1.2, r.2, pa <$> (arp_table r.1.1.1 !! 0%nat),
                   bool_decide (EvBroadcast 0 ∈ r.1.1.2)))
              <$> arp_resolve host_netif peer_pa None 0 true 1301 28 woken_by_eviction querying
            = Some (ARP_RESOLVE_FOUND, Some ETHERNET_ADDR_ANY, Some third_pa, true)) as Hval
      by (vm_compute; reflexivity).
    rewrite Hres in Hval. simpl in Hval. injection Hval as -> -> Hpa Hev.
    exists st, evs. split_and!; [done | by apply bool_decide_eq_true in Hev | done].
  - exfalso.
    assert (is_Some (arp_resolve host_netif peer_pa None 0 true 1301 28 woken_by_eviction
                       querying)) as [? Hev]
      by (vm_compute; eexists; reflexivity).
    congruence.
Qed.

(** Every slot the patrol clears gets a broadcast on its condition. *)
Lemma arp_table_patrol_from_broadcasts (ts : time_t) (k : nat) (tbl : list arp_entry)
    (i : nat) (e : arp_entry) :
  tbl !! i = Some e → used e = true → ts - timestamp e > ARP_TABLE_TIMEOUT_SEC →
  (arp_table_patrol_from ts k tbl).1 !! i = Some (arp_entry_clear e)
  ∧ EvBroadcast (k + i) ∈ (arp_table_patrol_from ts k tbl).2.
Proof.
  revert k i. induction tbl as [|x tbl IH]; intros k i Hi Hu Hold; [done|]. simpl.
  destruct i as [|i]; simpl in Hi.
  - injection Hi as ->.
    destruct (arp_table_patrol_from ts (S k) tbl) as [rest' evs].
    assert ((ts - timestamp e >? ARP_TABLE_TIMEOUT_SEC) = true) as -> by (apply Z.gtb_lt; lia).
    rewrite Hu. simpl. split; [done|].
    rewrite Nat.add_0_r. apply list_elem_of_here.
  - destruct (IH (S k) i Hi Hu Hold) as [Hclr Hev].
    destruct (arp_table_patrol_from ts (S k) tbl) as [rest' evs]. simpl in *.
    replace (k + S i)%nat with (S k + i)%nat by lia.
    destruct (used x && (ts - timestamp x >? ARP_TABLE_TIMEOUT_SEC)); simpl.
    + split; [done|]. by apply list_elem_of_further.
    + done.
Qed.

(** C3 (the code departs from it): when the wait of [arp_resolve] times out
    on an entry that is still used, the entry is cleared (its [used] flag
    goes from true to false) and nothing is broadcast on its condition:
    the only output of the call is the ARP request sent before the wait. *)
Theorem arp_resolve_timeout_no_broadcast :
  arp_resolve host_netif peer_pa None 0 true 1002 28 (woken_at_once CondTimedOut) querying
  = Some (fresh, peer_request_sent, ARP_RESOLVE_ERROR, None)
  ∧ (used <$> (arp_table querying !! 0%nat)) = Some true
  ∧ (used <$> (arp_table fresh !! 0%nat)) = Some false
  ∧ EvBroadcast 0 ∉ peer_request_sent.
Proof.
  split_and!; [vm_compute; reflexivity ..|].
  unfold peer_request_sent. simpl. intros Hin.
  apply list_elem_of_singleton in Hin. discriminate Hin.
Qed.

(** ** Transmit failures *)

(** On an empty cache, a resolver miss whose transmit returns -1:
    [arp_send_request] reports -1, and [arp_resolve] returns QUERY, which
    is 0, with the entry created as usual. *)
Lemma arp_resolve_tx_failure_query :
  (arp_send_request host_netif peer_pa (-1)).2 = -1
  ∧ arp_resolve host_netif peer_pa None 0 true 1001 (-1) (woken_at_once CondWoken) fresh
    = Some (querying, peer_request_sent, ARP_RESOLVE_QUERY, None)
  ∧ ¬ (ARP_RESOLVE_QUERY ≠ 0).
Proof.
  split_and!; [vm_compute; reflexivity ..|]. intros H. by apply H.
Qed.

(** C4 (amended): when the device transmit returns a negative value while
    [arp_resolve] sends its ARP REQUEST, the code returned to the caller
    and the resulting cache state are the ones of a call whose transmit
    succeeds: the failure does not mutate the cache and is not reported to
    the caller of [arp_resolve] (a miss still returns QUERY, which is 0);
    [arp_send_request] does return -1 for a transmit that returned -1, and
    [arp_resolve] discards it. *)
Theorem arp_resolve_tx_result_ignored (nif : netif_ip) (p : ip_addr_t)
    (buf : option (list byte)) (size : N) (malloc_ok : bool) (t : time_t)
    (txr txr' : Z) (w : wait_trace) (st : arp_state) :
  (arp_send_request nif p (-1)).2 = -1
  ∧ arp_resolve nif p buf size malloc_ok t txr w st
    = arp_resolve nif p buf size malloc_ok t txr' w st.
Proof. split; reflexivity. Qed.

(** ** Uniqueness of the used entry of an address *)

Lemma unique_pa_same (tbl : list arp_entry) (i : nat) (e e' : arp_entry) :
  tbl !! i = Some e →
  (used e' = true → used e = true ∧ pa e' = pa e) →
  unique_pa tbl → unique_pa (<[i := e']> tbl).
Proof.
  intros Hi Hsame Huniq a b ea eb Ha Hb Hua Hub Hpa.
  apply list_lookup_insert_Some in Ha as [(<- & <- & _)|[Hia Ha]];
    apply list_lookup_insert_Some in Hb as [(<- & <- & _)|[Hib Hb]]; [done|..].
  - destruct (Hsame Hua) as [Hu Hp].
    apply (Huniq i b e eb); [done | done | done | done | congruence].
  - destruct (Hsame Hub) as [Hu Hp].
    apply (Huniq a i ea e); [done | done | done | done | congruence].
  - by apply (Huniq a b ea eb).
Qed.

Lemma unique_pa_new (tbl : list arp_entry) (i : nat) (e' : arp_entry) :
  (∀ j e, tbl !! j = Some e → used e = true → pa e ≠ pa e') →
  unique_pa tbl → unique_pa (<[i := e']> tbl).
Proof.
  intros Hnew Huniq a b ea eb Ha Hb Hua Hub Hpa.
  apply list_lookup_insert_Some in Ha as [(<- & <- & _)|[Hia Ha]];
    apply list_lookup_insert_Some in Hb as [(<- & <- & _)|[Hib Hb]]; [done|..].
  - by destruct (Hnew b eb Hb Hub).
  - by destruct (Hnew a ea Ha Hua).
  - by apply (Huniq a b ea eb).
Qed.

Lemma arp_table_patrol_from_unique (ts : time_t) (k : nat) (tbl : list arp_entry) :
  unique_pa tbl → unique_pa (arp_table_patrol_from ts k tbl).1.
Proof.
  intros Huniq. rewrite arp_table_patrol_from_fmap.
  assert (∀ a ea, (patrol_entry ts <$> tbl) !! a = Some ea → used ea = true →
                  tbl !! a = Some ea) as Hold.
  { intros a ea Ha Hu. rewrite list_lookup_fmap in Ha.
    destruct (tbl !! a) as [e|]; [|done]. simpl in Ha. injection Ha as <-.
    unfold patrol_entry in *.
    by destruct (used e && (ts - timestamp e >? ARP_TABLE_TIMEOUT_SEC)). }
  intros a b ea eb Ha Hb Hua Hub Hpa.
  apply (Huniq a b ea eb); auto.
Qed.

Lemma arp_table_update_unique (dev : netdev) (p : ip_addr_t) (h : eth_addr) (now : time_t)
    (tbl tbl' : list arp_entry) (evs : list event) (r : Z) :
  arp_table_update dev p h now tbl = Some (tbl', evs, r) →
  unique_pa tbl → unique_pa tbl'.
Proof.
  unfold arp_table_update.
  destruct (arp_table_select p tbl) as [[i e]|] eqn:Hsel; [|by intros [= <- <- <-]].
  apply arp_table_select_Some in Hsel as (Hi & Hu & _).
  destruct (data e).
  - destruct (netif e); [|done]. intros [= <- <- <-] Huniq.
    by apply (unique_pa_same tbl i e).
  - intros [= <- <- <-] Huniq. by apply (unique_pa_same tbl i e).
Qed.

(** When [arp_table_update] does not merge, it has left the table as it was
    and no used entry has the address. *)
Lemma arp_table_update_not_merged (dev : netdev) (p : ip_addr_t) (h : eth_addr) (now : time_t)
    (tbl tbl' : list arp_entry) (evs : list event) (r : Z) :
  arp_table_update dev p h now tbl = Some (tbl', evs, r) → (r =? 0) = false →
  tbl' = tbl ∧ arp_table_select p tbl = None.
Proof.
  unfold arp_table_update.
  destruct (arp_table_select p tbl) as [[i e]|] eqn:Hsel; [|by intros [= <- <- <-]].
  destruct (data e).
  - destruct (netif e); [|done]. by intros [= <- <- <-].
  - by intros [= <- <- <-].
Qed.

Lemma arp_table_insert_unique (p : ip_addr_t) (h : eth_addr) (now : time_t)
    (tbl : list arp_entry) :
  arp_table_select p tbl = None →
  unique_pa tbl → unique_pa (arp_table_insert p h now tbl).1.1.
Proof.
  intros Hsel Huniq. unfold arp_table_insert.
  destruct (arp_table_freespace tbl) as [[i e]|]; [|done]. simpl.
  apply unique_pa_new; [|done]. simpl.
  by apply arp_table_select_None.
Qed.

Lemma arp_resolve_enter_unique (nif : netif_ip) (p : ip_addr_t) (buf : option (list byte))
    (size : N) (malloc_ok : bool) (t : time_t) (txr : Z) (tbl : list arp_entry) :
  unique_pa tbl →
  unique_pa (arp_resolve_enter nif p buf size malloc_ok t txr tbl).1.1.
Proof.
  intros Huniq. unfold arp_resolve_enter.
  destruct (arp_table_select p tbl) as [[i e]|] eqn:Hsel.
  { by destruct (bool_decide (ha e = ETHERNET_ADDR_ANY)). }
  pose proof (arp_table_select_None p tbl Hsel) as Hno.
  destruct (arp_table_freespace tbl) as [[i e]|] eqn:Hfree; [|done].
  apply arp_table_freespace_Some in Hfree as (Hi & Hu & _).
  destruct buf as [octets|]; [destruct malloc_ok|]; simpl.
  - by apply unique_pa_new.
  - apply (unique_pa_same tbl i e); [done | simpl; congruence | done].
  - by apply unique_pa_new.
Qed.

Lemma arp_resolve_wake_unique (i : nat) (ret : cond_ret) (tbl : list arp_entry) :
  unique_pa tbl → unique_pa (arp_resolve_wake i ret tbl).1.1.
Proof.
  intros Huniq. unfold arp_resolve_wake.
  destruct (tbl !! i) as [e|] eqn:Hi; [|done].
  destruct (negb (used e) || (if ret is CondTimedOut then true else false)); [|done].
  destruct (used e); simpl; [|done].
  by apply (unique_pa_same tbl i e).
Qed.

Lemma arp_rx_update_unique (message : arp_ethernet) (dev : netdev) (now t : time_t)
    (st st' : arp_state) (evs : list event) (merge : bool) :
  arp_rx_update message dev now t st = Some (st', evs, merge) →
  unique_pa (arp_table st) →
  unique_pa (arp_table st')
  ∧ (merge = false → arp_table_select (spa message) (arp_table st') = None).
Proof.
  unfold arp_rx_update, arp_table_patrol. intros Hupd Huniq.
  assert (∃ tbl1, unique_pa tbl1 ∧
            ∃ tbl2 ev2 r, arp_table_update dev (spa message) (sha message) t tbl1
                          = Some (tbl2, ev2, r)
                          ∧ arp_table st' = tbl2 ∧ merge = (r =? 0))
    as (tbl1 & Huniq1 & tbl2 & ev2 & r & Hupd2 & -> & ->).
  { destruct (now - arp_timestamp st >? 10); simpl in Hupd.
    - pose proof (arp_table_patrol_from_unique now 0 _ Huniq) as Hp.
      destruct (arp_table_patrol_from now 0 (arp_table st)) as [tbl1 ev1]. simpl in *.
      exists tbl1. split; [done|].
      destruct (arp_table_update _ _ _ _ _) as [[[tbl2 ev2] r]|]; [|done].
      simpl in Hupd. injection Hupd as <- <- <-. by eexists _, _, _.
    - exists (arp_table st). split; [done|].
      destruct (arp_table_update _ _ _ _ _) as [[[tbl2 ev2] r]|]; [|done].
      simpl in Hupd. injection Hupd as <- <- <-. by eexists _, _, _. }
  split.
  - by eapply arp_table_update_unique.
  - intros Hr. by destruct (arp_table_update_not_merged _ _ _ _ _ _ _ _ Hupd2 Hr) as [-> ?].
Qed.

Lemma run_action_unique (a : action) (st st' : arp_state) (evs : list event) :
  not_insert a → run_action a st = Some (st', evs) →
  unique_pa (arp_table st) → unique_pa (arp_table st').
Proof.
  destruct a as [message dev now t | message t | nif p buf size ok t txr | i ret];
    simpl; intros Hni Hrun Huniq; [|done|..].
  - destruct (arp_rx_update message dev now t st) as [[[st1 ev1] m]|] eqn:Hupd; [|done].
    simpl in Hrun. injection Hrun as <- <-.
    by destruct (arp_rx_update_unique _ _ _ _ _ _ _ _ Hupd Huniq).
  - pose proof (arp_resolve_enter_unique nif p buf size ok t txr _ Huniq) as H.
    destruct (arp_resolve_enter _ _ _ _ _ _ _ _) as [[tbl ev] r].
    by injection Hrun as <- <-.
  - pose proof (arp_resolve_wake_unique i ret _ Huniq) as H.
    destruct (arp_resolve_wake _ _ _) as [[tbl c] o].
    by injection Hrun as <- <-.
Qed.

Lemma run_actions_unique (acts : list action) (st st' : arp_state) (evs : list event) :
  Forall not_insert acts → run_actions acts st = Some (st', evs) →
  unique_pa (arp_table st) → unique_pa (arp_table st').
Proof.
  revert st evs. induction acts as [|a acts IH]; intros st evs Hni Hrun Huniq;
    simpl in Hrun.
  - by injection Hrun as <- <-.
  - apply Forall_cons in Hni as [Ha Hni].
    destruct (run_action a st) as [[st1 ev1]|] eqn:Hstep; [|done]. simpl in Hrun.
    destruct (run_actions acts st1) as [[st2 ev2]|] eqn:Hrest; [|done]. simpl in Hrun.
    injection Hrun as <- <-.
    apply (IH st1 ev2 Hni Hrest). by eapply run_action_unique.
Qed.

(** With no other thread between its two locked parts, [arp_rx] keeps the
    used entry of every address unique. *)
Lemma arp_rx_alone_unique (packet : list byte) (dev : netdev) (now t1 : time_t)
    (nif : option netif_ip) (t2 : time_t) (txr : Z) (st st' : arp_state)
    (evs : list event) :
  arp_rx packet dev now t1 [] nif t2 txr st = Some (st', evs) →
  unique_pa (arp_table st) → unique_pa (arp_table st').
Proof.
  unfold arp_rx. intros Hrx Huniq. revert Hrx.
  repeat (match goal with |- context [if ?c then Some (st, []) else _] => destruct c end;
          [by intros [= <- <-]|]).
  destruct (arp_rx_update _ dev now t1 st) as [[[st1 ev1] merge]|] eqn:Hupd; [|done].
  destruct (arp_rx_update_unique _ _ _ _ _ _ _ _ Hupd Huniq) as [Huniq1 Hsel].
  simpl. destruct nif as [n|]; [|by intros [= <- <-]].
  destruct (bool_decide _); [|by intros [= <- <-]].
  destruct merge; simpl.
  - by intros [= <- <-].
  - unfold arp_rx_insert.
    pose proof (arp_table_insert_unique _ (sha (arp_ethernet_cast packet)) t2 _
                  (Hsel eq_refl) Huniq1) as Hins.
    destruct (arp_table_insert _ _ _ _) as [[tbl ev] r]. simpl.
    by intros [= <- <-].
Qed.

(** [arp_resolve] keeps it too, whatever the other threads do during its
    wait except for an Insert of [arp_rx]. *)
Lemma arp_resolve_unique (nif : netif_ip) (p : ip_addr_t) (buf : option (list byte))
    (size : N) (malloc_ok : bool) (t : time_t) (txr : Z) (w : wait_trace)
    (st st' : arp_state) (evs : list event) (code : Z) (out : option eth_addr) :
  Forall not_insert (concat (interrupted w) ++ woken_after w) →
  arp_resolve nif p buf size malloc_ok t txr w st = Some (st', evs, code, out) →
  unique_pa (arp_table st) → unique_pa (arp_table st').
Proof.
  intros Hni Hres Huniq. unfold arp_resolve in Hres.
  pose proof (arp_resolve_enter_unique nif p buf size malloc_ok t txr _ Huniq) as H1.
  destruct (arp_resolve_enter _ _ _ _ _ _ _ _) as [[tbl1 ev1] r].
  destruct r as [c o|i].
  - by injection Hres as <- <- <- <-.
  - destruct (run_actions _ (with_table st tbl1)) as [[st2 ev2]|] eqn:Hoth; [|done].
    simpl in Hres.
    pose proof (run_actions_unique _ _ _ _ Hni Hoth H1) as H2.
    pose proof (arp_resolve_wake_unique i (woken_ret w) _ H2) as H3.
    destruct (arp_resolve_wake _ _ _) as [[tbl3 c] o].
    by injection Hres as <- <- <- <-.
Qed.

(** C5 (the code departs from it): [arp_rx] releases the mutex between its
    Update and its Insert; when another thread's [arp_resolve] misses for
    the same address in between, the Insert after the not-merged Update
    creates a second used entry for that [spa]. *)
Theorem arp_rx_insert_duplicates :
  fst <$> arp_rx peer_request host_dev 1001 1001
            [ActResolveEnter host_netif peer_pa None 0 true 1001 28]
            (Some host_netif) 1002 28 fresh
  = Some duplicated
  ∧ unique_pa (arp_table fresh)
  ∧ arp_table duplicated !! 0%nat = Some (peer_query_entry 1001)
  ∧ arp_table duplicated !! 1%nat = Some (peer_known_entry 1002)
  ∧ ¬ unique_pa (arp_table duplicated).
Proof.
  split_and!; [vm_compute; reflexivity | | reflexivity | reflexivity |].
  - intros i j ei ej Hi Hj Hu. apply lookup_replicate in Hi as [-> _]. discriminate Hu.
  - intros Huniq.
    specialize (Huniq 0%nat 1%nat (peer_query_entry 1001) (peer_known_entry 1002)).
    discriminate Huniq; reflexivity.
Qed.

(** * Further properties of the module *)

(** ** Lookup and allocation *)

Lemma arp_table_select_complete (p : ip_addr_t) (tbl : list arp_entry) (i : nat)
    (e : arp_entry) :
  tbl !! i = Some e → used e = true → pa e = p →
  (∀ j e', (j < i)%nat → tbl !! j = Some e' → ¬ (used e' = true ∧ pa e' = p)) →
  arp_table_select p tbl = Some (i, e).
Proof.
  intros Hi Hu Hp Hfirst.
  destruct (arp_table_select p tbl) as [[i' e']|] eqn:Hsel.
  - apply arp_table_select_Some in Hsel as (Hi' & Hu' & Hp' & Hfirst').
    destruct (Nat.lt_trichotomy i i') as [Hlt|[->|Hlt]].
    + by destruct (Hfirst' i e Hlt Hi).
    + congruence.
    + by destruct (Hfirst i' e' Hlt Hi').
  - by destruct (arp_table_select_None p tbl Hsel i e Hi Hu).
Qed.

Lemma arp_table_freespace_complete (tbl : list arp_entry) (i : nat) (e : arp_entry) :
  tbl !! i = Some e → used e = false →
  (∀ j e', (j < i)%nat → tbl !! j = Some e' → used e' = true) →
  arp_table_freespace tbl = Some (i, e).
Proof.
  intros Hi Hu Hfirst.
  destruct (arp_table_freespace tbl) as [[i' e']|] eqn:Hfree.
  - apply arp_table_freespace_Some in Hfree as (Hi' & Hu' & Hfirst').
    destruct (Nat.lt_trichotomy i i') as [Hlt|[->|Hlt]].
    + pose proof (Hfirst' i e Hlt Hi). congruence.
    + congruence.
    + pose proof (Hfirst i' e' Hlt Hi'). congruence.
  - pose proof (arp_table_freespace_from_None _ _ Hfree i e Hi). congruence.
Qed.

(** X1: [arp_table_select] returns the used slot of lowest index whose
    [pa] is the address looked up, and NULL exactly when no used slot has
    that address; slots that are not used never match, whatever their
    [pa]. *)
Theorem arp_table_select_first (p : ip_addr_t) (tbl : list arp_entry) :
  (∀ i e, arp_table_select p tbl = Some (i, e) ↔
          tbl !! i = Some e ∧ used e = true ∧ pa e = p
          ∧ ∀ j e', (j < i)%nat → tbl !! j = Some e' → ¬ (used e' = true ∧ pa e' = p))
  ∧ (arp_table_select p tbl = None ↔
     ∀ j e, tbl !! j = Some e → used e = true → pa e ≠ p).
Proof.
  split.
  - intros i e. split.
    + apply arp_table_select_Some.
    + intros (Hi & Hu & Hp & Hfirst). by apply arp_table_select_complete.
  - split.
    + apply arp_table_select_None.
    + apply arp_table_select_not_used.
Qed.

(** X2: [arp_table_freespace] returns the slot of lowest index that is not
    used, and NULL exactly when every slot is used. *)
Theorem arp_table_freespace_first (tbl : list arp_entry) :
  (∀ i e, arp_table_freespace tbl = Some (i, e) ↔
          tbl !! i = Some e ∧ used e = false
          ∧ ∀ j e', (j < i)%nat → tbl !! j = Some e' → used e' = true)
  ∧ (arp_table_freespace tbl = None ↔ ∀ j e, tbl !! j = Some e → used e = true).
Proof.
  split.
  - intros i e. split.
    + apply arp_table_freespace_Some.
    + intros (Hi & Hu & Hfirst). by apply arp_table_freespace_complete.
  - split.
    + apply arp_table_freespace_from_None.
    + intros Hfull. destruct (arp_table_freespace tbl) as [[i e]|] eqn:Hfree; [|done].
      apply arp_table_freespace_Some in Hfree as (Hi & Hu & _).
      pose proof (Hfull i e Hi). congruence.
Qed.

(** A write to a slot that is not used, of an entry for another address,
    does not change what a lookup returns. *)
Lemma arp_table_select_insert_other (q : ip_addr_t) (tbl : list arp_entry) (i : nat)
    (e e' : arp_entry) :
  tbl !! i = Some e → used e = false → pa e' ≠ q →
  arp_table_select q (<[i := e']> tbl) = arp_table_select q tbl.
Proof.
  intros Hi Hu Hq.
  destruct (arp_table_select q tbl) as [[j ej]|] eqn:Hsel.
  - apply arp_table_select_Some in Hsel as (Hj & Huj & Hpj & Hfirst).
    assert (i ≠ j) as Hij by (intros ->; congruence).
    apply arp_table_select_complete; [|done|done|].
    + by rewrite list_lookup_insert_ne.
    + intros k ek Hk Hek [Huk Hpk].
      apply list_lookup_insert_Some in Hek as [(<- & <- & _)|[_ Hek]]; [done|].
      by apply (Hfirst k ek).
  - apply arp_table_select_not_used. intros k ek Hek Huk.
    apply list_lookup_insert_Some in Hek as [(<- & <- & _)|[_ Hek]]; [done|].
    by apply (arp_table_select_None q tbl Hsel k ek).
Qed.

(** X3: Insert then lookup.  When no used entry has the address and a slot
    is free, [arp_table_insert] returns 0, broadcasts on the condition of
    the slot it fills, and a lookup of the address afterwards returns that
    slot with the inserted [ha] and time stamp; lookups of every other
    address return what they returned before. *)
Theorem arp_table_insert_select (p : ip_addr_t) (h : eth_addr) (now : time_t)
    (tbl : list arp_entry) :
  arp_table_select p tbl = None →
  (∃ j e, tbl !! j = Some e ∧ used e = false) →
  ∃ tbl' i entry,
    arp_table_insert p h now tbl = (tbl', [EvBroadcast i], 0)
    ∧ arp_table_select p tbl' = Some (i, entry)
    ∧ ha entry = h ∧ timestamp entry = now
    ∧ ∀ q, q ≠ p → arp_table_select q tbl' = arp_table_select q tbl.
Proof.
  intros Hsel (j0 & e0 & Hj0 & Hu0).
  destruct (arp_table_freespace_free _ j0 e0 Hj0 Hu0) as (i & e & Hfree).
  destruct (arp_table_freespace_Some _ _ _ Hfree) as (Hi & Hu & _).
  unfold arp_table_insert. rewrite Hfree.
  pose (entry := {| used := true; pa := p; ha := h; timestamp := now;
                    data := data e; len := len e; netif := netif e |}).
  exists (<[i := entry]> tbl), i, entry. split; [reflexivity|]. split_and!.
  - apply arp_table_select_complete; [|done|done|].
    + apply list_lookup_insert_eq. by eapply lookup_lt_Some.
    + intros k ek Hk Hek [Huk Hpk].
      rewrite list_lookup_insert_ne in Hek by lia.
      by apply (arp_table_select_None p tbl Hsel k ek).
  - done.
  - done.
  - intros q Hq. apply (arp_table_select_insert_other q tbl i e); [done|done|].
    simpl. congruence.
Qed.

Lemma arp_table_insert_select_witness :
  ∃ tbl' i entry,
    arp_table_insert peer_pa peer_ha 1002 (arp_table fresh) = (tbl', [EvBroadcast i], 0)
    ∧ arp_table_select peer_pa tbl' = Some (i, entry)
    ∧ ha entry = peer_ha ∧ timestamp entry = 1002
    ∧ ∀ q, q ≠ peer_pa → arp_table_select q tbl' = arp_table_select q (arp_table fresh).
Proof.
  apply (arp_table_insert_select peer_pa peer_ha 1002 (arp_table fresh)).
  - vm_compute. reflexivity.
  - exists 0%nat, arp_entry_zero. split; reflexivity.
Defined.

(** X4: on a table whose slots are all used, [arp_table_insert] returns -1,
    changes nothing and broadcasts nothing. *)
Theorem arp_table_insert_full (p : ip_addr_t) (h : eth_addr) (now : time_t)
    (tbl : list arp_entry) :
  (∀ j e, tbl !! j = Some e → used e = true) →
  arp_table_insert p h now tbl = (tbl, [], -1).
Proof.
  intros Hfull. unfold arp_table_insert.
  destruct (arp_table_freespace tbl) as [[i e]|] eqn:Hfree; [|done].
  apply arp_table_freespace_Some in Hfree as (Hi & Hu & _).
  pose proof (Hfull i e Hi). congruence.
Qed.

Lemma arp_table_insert_full_witness :
  arp_table_insert third_pa peer_ha 1002 [peer_query_entry 1001; peer_known_entry 1002]
  = ([peer_query_entry 1001; peer_known_entry 1002], [], -1).
Proof.
  apply (arp_table_insert_full third_pa peer_ha 1002
           [peer_query_entry 1001; peer_known_entry 1002]).
  intros [|[|j]] e He; simpl in He; [by injection He as <- ..|done].
Defined.

(** ** Merging a binding *)

(** X5: [arp_table_update] returns -1 exactly when no used entry has the
    address, and then changes nothing and signals nothing.  Otherwise it
    returns 0; the matched slot keeps [used], [pa] and [netif], takes the
    new [ha] and time stamp and has no payload left; every other slot is
    untouched; and the last thing it does is broadcast on the matched
    slot's condition. *)
Theorem arp_table_update_frame (dev : netdev) (p : ip_addr_t) (h : eth_addr) (now : time_t)
    (tbl tbl' : list arp_entry) (evs : list event) (r : Z) :
  arp_table_update dev p h now tbl = Some (tbl', evs, r) →
  (r = -1 ↔ arp_table_select p tbl = None)
  ∧ (r = -1 → tbl' = tbl ∧ evs = [])
  ∧ (∀ i e, arp_table_select p tbl = Some (i, e) →
       r = 0
       ∧ (∃ e', tbl' !! i = Some e'
                ∧ used e' = true ∧ pa e' = p ∧ netif e' = netif e
                ∧ ha e' = h ∧ timestamp e' = now ∧ data e' = None)
       ∧ (∀ j, j ≠ i → tbl' !! j = tbl !! j)
       ∧ last evs = Some (EvBroadcast i)).
Proof.
  unfold arp_table_update.
  destruct (arp_table_select p tbl) as [[i e]|] eqn:Hsel.
  - destruct (arp_table_select_Some _ _ _ _ Hsel) as (Hi & Hu & Hp & _).
    assert (i < length tbl)%nat as Hlt by (by eapply lookup_lt_Some).
    destruct (data e) as [payload|].
    + destruct (netif e) as [nif|] eqn:Hnif; [|done].
      intros [= <- <- <-]. split_and!; [done | done |].
      intros i' e' [= <- <-]. split_and!.
      * done.
      * eexists. split; [by apply list_lookup_insert_eq|]. by rewrite Hnif.
      * intros j Hj. by apply list_lookup_insert_ne.
      * by destruct (negb (bool_decide (dev_id (netif_dev nif) = dev_id dev))).
    + intros [= <- <- <-]. split_and!; [done | done |].
      intros i' e' [= <- <-]. split_and!.
      * done.
      * eexists. split; [by apply list_lookup_insert_eq|]. done.
      * intros j Hj. by apply list_lookup_insert_ne.
      * done.
  - intros [= <- <- <-]. split_and!; done.
Qed.

Lemma arp_table_update_frame_witness :
  ∃ tbl' evs,
    arp_table_update other_dev peer_pa peer_ha 1002 (arp_table pending) = Some (tbl', evs, 0)
    ∧ (0 = -1 ↔ arp_table_select peer_pa (arp_table pending) = None)
    ∧ (0 = -1 → tbl' = arp_table pending ∧ evs = [])
    ∧ (∀ i e, arp_table_select peer_pa (arp_table pending) = Some (i, e) →
         0 = 0
         ∧ (∃ e', tbl' !! i = Some e'
                  ∧ used e' = true ∧ pa e' = peer_pa ∧ netif e' = netif e
                  ∧ ha e' = peer_ha ∧ timestamp e' = 1002 ∧ data e' = None)
         ∧ (∀ j, j ≠ i → tbl' !! j = arp_table pending !! j)
         ∧ last evs = Some (EvBroadcast i)).
Proof.
  destruct (arp_table_update other_dev peer_pa peer_ha 1002 (arp_table pending))
    as [[[tbl' evs] r]|] eqn:Hupd.
  - assert (snd <$> arp_table_update other_dev peer_pa peer_ha 1002 (arp_table pending)
            = Some 0) as Hr by (vm_compute; reflexivity).
    rewrite Hupd in Hr. injection Hr as ->.
    exists tbl', evs. split; [reflexivity|].
    exact (arp_table_update_frame other_dev peer_pa peer_ha 1002 (arp_table pending)
             tbl' evs 0 Hupd).
  - exfalso.
    assert (is_Some (arp_table_update other_dev peer_pa peer_ha 1002 (arp_table pending)))
      as [? Hsome] by (vm_compute; eexists; reflexivity).
    congruence.
Defined.

(** ** Clearing and the patrol *)

Lemma arp_table_patrol_from_events (ts : time_t) (k : nat) (tbl : list arp_entry)
    (ev : event) :
  ev ∈ (arp_table_patrol_from ts k tbl).2 →
  ∃ i e, ev = EvBroadcast (k + i) ∧ tbl !! i = Some e
         ∧ used e = true ∧ ts - timestamp e > ARP_TABLE_TIMEOUT_SEC.
Proof.
  revert k. induction tbl as [|x tbl IH]; intros k; simpl.
  { intros Hin. by apply elem_of_nil in Hin. }
  specialize (IH (S k)). destruct (arp_table_patrol_from ts (S k) tbl) as [rest' evs].
  simpl in IH.
  assert (ev ∈ evs →
          ∃ i e, ev = EvBroadcast (k + i) ∧ (x :: tbl) !! i = Some e
                 ∧ used e = true ∧ ts - timestamp e > ARP_TABLE_TIMEOUT_SEC) as Hrest.
  { intros Hin. destruct (IH Hin) as (i & e & -> & Hi & Hu & Hold).
    exists (S i), e. split_and!; [f_equal; lia | done | done | done]. }
  destruct (used x && (ts - timestamp x >? ARP_TABLE_TIMEOUT_SEC)) eqn:Hx; simpl; [|done].
  intros Hin. apply elem_of_cons in Hin as [->|Hin]; [|by apply Hrest].
  apply andb_true_iff in Hx as [Hu Hold]. apply Z.gtb_lt in Hold.
  exists 0%nat, x. split_and!; [f_equal; lia | done | done | lia].
Qed.

(** X6: the patrol treats each slot by itself.  A used slot whose time
    stamp is more than 300 seconds before the global [timestamp] is
    cleared ([used] 0, [pa], [ha] and time stamp zeroed, no payload, no
    [netif]) and its condition is broadcast; every other slot is left as
    it is and gets no broadcast; so afterwards no used slot is older than
    300 seconds, and the global [timestamp] is unchanged. *)
Theorem arp_table_patrol_expires (st : arp_state) :
  arp_timestamp (arp_table_patrol st).1 = arp_timestamp st
  ∧ (∀ i e, arp_table st !! i = Some e →
       if used e && (arp_timestamp st - timestamp e >? ARP_TABLE_TIMEOUT_SEC)
       then arp_table (arp_table_patrol st).1 !! i = Some (arp_entry_clear e)
            ∧ used (arp_entry_clear e) = false
            ∧ data (arp_entry_clear e) = None ∧ netif (arp_entry_clear e) = None
            ∧ EvBroadcast i ∈ (arp_table_patrol st).2
       else arp_table (arp_table_patrol st).1 !! i = Some e
            ∧ EvBroadcast i ∉ (arp_table_patrol st).2)
  ∧ (∀ i e, arp_table (arp_table_patrol st).1 !! i = Some e → used e = true →
       arp_timestamp st - timestamp e ≤ ARP_TABLE_TIMEOUT_SEC).
Proof.
  unfold arp_table_patrol.
  pose proof (arp_table_patrol_from_fmap (arp_timestamp st) 0 (arp_table st)) as Hmap.
  pose proof (arp_table_patrol_from_events (arp_timestamp st) 0 (arp_table st)) as Hevs.
  pose proof (arp_table_patrol_from_broadcasts (arp_timestamp st) 0 (arp_table st)) as Hbc.
  destruct (arp_table_patrol_from (arp_timestamp st) 0 (arp_table st)) as [tbl' evs].
  simpl in *. subst tbl'. split_and!; [done | |].
  - intros i e Hi.
    destruct (used e && (arp_timestamp st - timestamp e >? ARP_TABLE_TIMEOUT_SEC)) eqn:Hx.
    + apply andb_true_iff in Hx as [Hu Hold]. apply Z.gtb_lt in Hold.
      destruct (Hbc i e Hi Hu ltac:(lia)) as [Hclr Hin].
      split_and!; [done | done | done | done |].
      by apply list_elem_of_further.
    + split.
      * rewrite list_lookup_fmap, Hi. simpl. unfold patrol_entry. by rewrite Hx.
      * intros Hin. apply elem_of_cons in Hin as [?|Hin]; [done|].
        destruct (Hevs _ Hin) as (i' & e' & [= ->] & Hi' & Hu' & Hold').
        rewrite Hi in Hi'. injection Hi' as <-.
        rewrite Hu' in Hx. simpl in Hx.
        destruct (Z.gtb_spec (arp_timestamp st - timestamp e) ARP_TABLE_TIMEOUT_SEC);
          [done|lia].
  - intros i e' Hi' Hu'.
    rewrite list_lookup_fmap in Hi'.
    destruct (arp_table st !! i) as [e|]; [|done]. simpl in Hi'. injection Hi' as <-.
    unfold patrol_entry in *.
    destruct (used e && (arp_timestamp st - timestamp e >? ARP_TABLE_TIMEOUT_SEC)) eqn:Hx;
      [done|].
    rewrite Hu' in Hx. simpl in Hx.
    destruct (Z.gtb_spec (arp_timestamp st - timestamp e) ARP_TABLE_TIMEOUT_SEC); [done|lia].
Qed.

(** ** Messages the module builds *)

Lemma byte_to_of_Z (z : Z) : 0 ≤ z < 256 → byte_to_Z (byte_of_Z z) = z.
Proof.
  intros Hz. unfold byte_to_Z, byte_of_Z. rewrite Z.mod_small by done.
  destruct (Byte.of_N (Z.to_N z)) as [b|] eqn:Hb.
  - apply Byte.to_of_N in Hb. rewrite Hb. lia.
  - apply Byte.of_N_None_iff in Hb. lia.
Qed.

Lemma ntoh16_hton16 (v : Z) : 0 ≤ v < 65536 → ntoh16 (hton16 v) = v.
Proof.
  intros Hv. unfold ntoh16, hton16. simpl.
  rewrite <- (byte_of_Z_mod v).
  pose proof (Z.mod_pos_bound v 256 ltac:(lia)) as Hlo.
  assert (0 ≤ v / 256 < 256) as Hhi.
  { split; [apply Z.div_pos; lia | apply Z.div_lt_upper_bound; lia]. }
  rewrite !byte_to_of_Z by done.
  pose proof (Z.div_mod v 256 ltac:(lia)). lia.
Qed.

Lemma arp_ethernet_cast_bytes (m : arp_ethernet) :
  arp_ethernet_cast (arp_ethernet_bytes m) = m.
Proof.
  destruct m as [[[h0 h1] [p0 p1] hl pl [o0 o1]]
                 [[[[[s0 s1] s2] s3] s4] s5] [[[sp0 sp1] sp2] sp3]
                 [[[[[t0 t1] t2] t3] t4] t5] [[[tp0 tp1] tp2] tp3]].
  reflexivity.
Qed.

Lemma arp_ethernet_bytes_length (m : arp_ethernet) :
  length (arp_ethernet_bytes m) = sizeof_arp_ethernet.
Proof.
  destruct m as [[[h0 h1] [p0 p1] hl pl [o0 o1]]
                 [[[[[s0 s1] s2] s3] s4] s5] [[[sp0 sp1] sp2] sp3]
                 [[[[[t0 t1] t2] t3] t4] t5] [[[tp0 tp1] tp2] tp3]].
  reflexivity.
Qed.

(** X7: the image of a message built field by field, as [arp_send_request]
    and [arp_send_reply] build theirs, has 28 octets, and reading it back
    as [arp_rx] does gives the same field values, for 16-bit values below
    65536 and 8-bit values below 256. *)
Theorem arp_decode_encode (f : arp_fields) :
  0 ≤ f_hrd f < 65536 → 0 ≤ f_pro f < 65536 → 0 ≤ f_op f < 65536 →
  0 ≤ f_hln f < 256 → 0 ≤ f_pln f < 256 →
  length (arp_encode f) = sizeof_arp_ethernet ∧ arp_decode (arp_encode f) = f.
Proof.
  intros Hhrd Hpro Hop Hhln Hpln. unfold arp_encode. split.
  - apply arp_ethernet_bytes_length.
  - unfold arp_decode. rewrite arp_ethernet_cast_bytes.
    destruct f. simpl in *.
    by rewrite !ntoh16_hton16, !byte_to_of_Z.
Qed.

Lemma arp_decode_encode_witness :
  length (arp_encode (arp_decode peer_reply)) = sizeof_arp_ethernet
  ∧ arp_decode (arp_encode (arp_decode peer_reply)) = arp_decode peer_reply.
Proof.
  apply (arp_decode_encode (arp_decode peer_reply)); vm_compute; split; congruence.
Defined.

(** X8: [arp_opcode_ntop] names a member REQUEST exactly when its two
    octets are 00 01, REPLY exactly when they are 00 02, and UNKNOWN for
    every other value. *)
Theorem arp_opcode_ntop_names (opcode : wire16) :
  (arp_opcode_ntop opcode = "REQUEST"%string ↔ opcode = (x00, x01))
  ∧ (arp_opcode_ntop opcode = "REPLY"%string ↔ opcode = (x00, x02))
  ∧ (arp_opcode_ntop opcode = "UNKNOWN"%string ↔
     opcode ≠ (x00, x01) ∧ opcode ≠ (x00, x02)).
Proof.
  assert (ntoh16 opcode = 1 ↔ opcode = (x00, x01)) as H1.
  { split; [|by intros ->].
    intros H. rewrite <- (hton16_ntoh16 opcode), H. reflexivity. }
  assert (ntoh16 opcode = 2 ↔ opcode = (x00, x02)) as H2.
  { split; [|by intros ->].
    intros H. rewrite <- (hton16_ntoh16 opcode), H. reflexivity. }
  unfold arp_opcode_ntop, ARP_OP_REQUEST, ARP_OP_REPLY.
  destruct (Z.eqb_spec (ntoh16 opcode) 1) as [E1|E1];
    [|destruct (Z.eqb_spec (ntoh16 opcode) 2) as [E2|E2]].
  - split_and!; split; try done.
    + intros _. by apply H1.
    + intros ->. by rewrite E1 in H2.
    + intros [Hne _]. destruct Hne. by apply H1.
  - split_and!; split; try done.
    + intros ->. done.
    + intros _. by apply H2.
    + intros [_ Hne]. destruct Hne. by apply H2.
  - split_and!; split; try done.
    + intros ->. done.
    + intros ->. done.
    + intros _. split; intros ->; done.
Qed.

(** X9: [arp_send_request] makes one transmit, on the interface's device,
    with EtherType ARP (0x0806), to the broadcast address, of a 28-octet
    message that reads back as an Ethernet/IPv4 REQUEST from the device's
    link address and the interface's unicast address, with an all-zero
    target link address, for the address asked.  It returns -1 exactly
    when the transmit returns -1, and 0 otherwise (also for the other
    negative values). *)
Theorem arp_send_request_frame (nif : netif_ip) (target : ip_addr_t) (txr : Z) :
  ∃ frame,
    (arp_send_request nif target txr).1
    = [EvTx (dev_id (netif_dev nif)) 0x0806 frame 28 (xff, xff, xff, xff, xff, xff)]
    ∧ length frame = 28%nat
    ∧ arp_decode frame
      = {| f_hrd := 1; f_pro := 0x0800; f_hln := 6; f_pln := 4; f_op := 1;
           f_sha := addr (netif_dev nif); f_spa := unicast nif;
           f_tha := (x00, x00, x00, x00, x00, x00); f_tpa := target |}
    ∧ ((arp_send_request nif target txr).2 = -1 ↔ txr = -1)
    ∧ ((arp_send_request nif target txr).2 = 0 ↔ txr ≠ -1).
Proof.
  eexists. split; [reflexivity|]. split_and!.
  - apply arp_ethernet_bytes_length.
  - unfold arp_decode. rewrite arp_ethernet_cast_bytes. reflexivity.
  - simpl. destruct (Z.eqb_spec txr (-1)); split; done.
  - simpl. destruct (Z.eqb_spec txr (-1)); split; done.
Qed.

(** X10: [arp_send_reply] makes one transmit, on the interface's device,
    with EtherType ARP, to the destination given, of a 28-octet message
    that reads back as an Ethernet/IPv4 REPLY from the device's link
    address and the interface's unicast address to the target given.  It
    returns -1 exactly when the transmit returns a negative value. *)
Theorem arp_send_reply_frame (nif : netif_ip) (target_ha : eth_addr) (target_pa : ip_addr_t)
    (dst : eth_addr) (txr : Z) :
  ∃ frame,
    (arp_send_reply nif target_ha target_pa dst txr).1
    = [EvTx (dev_id (netif_dev nif)) 0x0806 frame 28 dst]
    ∧ length frame = 28%nat
    ∧ arp_decode frame
      = {| f_hrd := 1; f_pro := 0x0800; f_hln := 6; f_pln := 4; f_op := 2;
           f_sha := addr (netif_dev nif); f_spa := unicast nif;
           f_tha := target_ha; f_tpa := target_pa |}
    ∧ ((arp_send_reply nif target_ha target_pa dst txr).2 = -1 ↔ txr < 0)
    ∧ ((arp_send_reply nif target_ha target_pa dst txr).2 = 0 ↔ 0 ≤ txr).
Proof.
  eexists. split; [reflexivity|]. split_and!.
  - apply arp_ethernet_bytes_length.
  - unfold arp_decode. rewrite arp_ethernet_cast_bytes. reflexivity.
  - simpl. destruct (Z.ltb_spec txr 0); split; (done || lia).
  - simpl. destruct (Z.ltb_spec txr 0); split; (done || lia).
Qed.

(** ** The resolver without a wait *)

Lemma with_table_same (st : arp_state) : with_table st (arp_table st) = st.
Proof. by destruct st. Qed.

(** X11: when the cache has a used entry for the address whose [ha] is not
    all-zero, [arp_resolve] returns FOUND with that [ha], transmits
    nothing, leaves the cache as it is and does not take the caller's
    payload. *)
Theorem arp_resolve_hit (nif : netif_ip) (p : ip_addr_t) (buf : option (list byte))
    (size : N) (malloc_ok : bool) (t : time_t) (txr : Z) (w : wait_trace)
    (st : arp_state) (i : nat) (entry : arp_entry) :
  arp_table st !! i = Some entry → used entry = true → pa entry = p →
  (∀ j e, (j < i)%nat → arp_table st !! j = Some e → ¬ (used e = true ∧ pa e = p)) →
  ha entry ≠ ETHERNET_ADDR_ANY →
  arp_resolve nif p buf size malloc_ok t txr w st
  = Some (st, [], ARP_RESOLVE_FOUND, Some (ha entry))
  ∧ ARP_RESOLVE_FOUND = 1.
Proof.
  intros Hi Hu Hp Hfirst Hha. split; [|done].
  unfold arp_resolve, arp_resolve_enter.
  rewrite (arp_table_select_complete p _ i entry Hi Hu Hp Hfirst).
  rewrite bool_decide_eq_false_2 by done.
  by rewrite with_table_same.
Qed.

Lemma arp_resolve_hit_witness :
  arp_resolve host_netif peer_pa (Some peer_payload) 2 true 1003 28
    (woken_at_once CondWoken) resolved
  = Some (resolved, [], ARP_RESOLVE_FOUND, Some (ha (peer_known_entry 1002)))
  ∧ ARP_RESOLVE_FOUND = 1.
Proof.
  apply (arp_resolve_hit host_netif peer_pa (Some peer_payload) 2 true 1003 28
           (woken_at_once CondWoken) resolved 0%nat (peer_known_entry 1002)).
  - reflexivity.
  - reflexivity.
  - reflexivity.
  - intros j e Hj. lia.
  - discriminate.
Defined.

(** X12: when no used entry has the address and every slot is used,
    [arp_resolve] returns ERROR (-1), transmits nothing and leaves the
    cache as it is. *)
Theorem arp_resolve_table_full (nif : netif_ip) (p : ip_addr_t) (buf : option (list byte))
    (size : N) (malloc_ok : bool) (t : time_t) (txr : Z) (w : wait_trace) (st : arp_state) :
  (∀ j e, arp_table st !! j = Some e → used e = true ∧ pa e ≠ p) →
  arp_resolve nif p buf size malloc_ok t txr w st = Some (st, [], ARP_RESOLVE_ERROR, None)
  ∧ ARP_RESOLVE_ERROR = -1.
Proof.
  intros Hfull. split; [|done].
  unfold arp_resolve, arp_resolve_enter.
  rewrite (arp_table_select_not_used p (arp_table st))
    by (intros j e Hj _; by destruct (Hfull j e Hj)).
  destruct (arp_table_freespace (arp_table st)) as [[i e]|] eqn:Hfree.
  - apply arp_table_freespace_Some in Hfree as (Hi & Hu & _).
    destruct (Hfull i e Hi). congruence.
  - by rewrite with_table_same.
Qed.

Lemma arp_resolve_table_full_witness :
  arp_resolve host_netif third_pa None 0 true 1003 28 (woken_at_once CondWoken)
    {| arp_table := [peer_known_entry 1002]; arp_timestamp := 1000 |}
  = Some ({| arp_table := [peer_known_entry 1002]; arp_timestamp := 1000 |}, [],
          ARP_RESOLVE_ERROR, None)
  ∧ ARP_RESOLVE_ERROR = -1.
Proof.
  apply (arp_resolve_table_full host_netif third_pa None 0 true 1003 28
           (woken_at_once CondWoken)
           {| arp_table := [peer_known_entry 1002]; arp_timestamp := 1000 |}).
  intros [|j] e He; simpl in He; [|done].
  injection He as <-. split; [reflexivity | discriminate].
Defined.

(** X13: when [malloc] fails on a miss, [arp_resolve] returns ERROR,
    transmits nothing and leaves every slot of a reachable cache as it
    was: no entry is created for the address. *)
Theorem arp_resolve_malloc_failure (nif : netif_ip) (p : ip_addr_t) (octets : list byte)
    (size : N) (t : time_t) (txr : Z) (w : wait_trace) (st : arp_state) :
  reachable st →
  (∀ j e, arp_table st !! j = Some e → used e = true → pa e ≠ p) →
  arp_resolve nif p (Some octets) size false t txr w st
  = Some (st, [], ARP_RESOLVE_ERROR, None).
Proof.
  intros Hst Hno. apply reachable_ok in Hst.
  unfold arp_resolve, arp_resolve_enter.
  rewrite (arp_table_select_not_used p _ Hno).
  destruct (arp_table_freespace (arp_table st)) as [[i e]|] eqn:Hfree.
  - apply arp_table_freespace_Some in Hfree as (Hi & Hu & _).
    destruct (table_ok_lookup _ _ _ Hst Hi) as (Hz & _). specialize (Hz Hu). subst e.
    simpl. rewrite list_insert_id by done. by rewrite with_table_same.
  - by rewrite with_table_same.
Qed.

Lemma arp_resolve_malloc_failure_witness :
  arp_resolve host_netif peer_pa (Some peer_payload) 2 false 1001 28
    (woken_at_once CondWoken) fresh
  = Some (fresh, [], ARP_RESOLVE_ERROR, None).
Proof.
  apply (arp_resolve_malloc_failure host_netif peer_pa peer_payload 2 1001 28
           (woken_at_once CondWoken) fresh).
  - apply reachable_init.
  - intros j e Hj Hu. apply lookup_replicate in Hj as [-> _]. discriminate Hu.
Defined.

(** X14: on a miss with a payload, in a reachable cache with a free slot,
    [arp_resolve] returns QUERY after one ARP REQUEST; it fills the free
    slot of lowest index with the address, an all-zero [ha], the time
    read, a copy of the first [len] octets of the payload, [len] and the
    caller's interface; every other slot and the global [timestamp] stay
    as they were. *)
Theorem arp_resolve_miss_payload (nif : netif_ip) (p : ip_addr_t) (octets : list byte)
    (size : N) (t : time_t) (txr : Z) (w : wait_trace) (st : arp_state) :
  reachable st →
  (∀ j e, arp_table st !! j = Some e → used e = true → pa e ≠ p) →
  (∃ j e, arp_table st !! j = Some e ∧ used e = false) →
  ∃ i,
    arp_table_freespace (arp_table st) = Some (i, arp_entry_zero)
    ∧ arp_resolve nif p (Some octets) size true t txr w st
      = Some ({| arp_table :=
                   <[i := {| used := true; pa := p; ha := eth_addr_zero; timestamp := t;
                             data := Some (take (N.to_nat size) octets); len := size;
                             netif := Some nif |}]> (arp_table st);
                 arp_timestamp := arp_timestamp st |},
              (arp_send_request nif p txr).1, ARP_RESOLVE_QUERY, None).
Proof.
  intros Hst Hno (j0 & e0 & Hj0 & Hu0). apply reachable_ok in Hst.
  destruct (arp_table_freespace_free _ j0 e0 Hj0 Hu0) as (i & e & Hfree).
  destruct (arp_table_freespace_Some _ _ _ Hfree) as (Hi & Hu & _).
  destruct (table_ok_lookup _ _ _ Hst Hi) as (Hz & _). specialize (Hz Hu). subst e.
  exists i. split; [done|].
  unfold arp_resolve, arp_resolve_enter.
  by rewrite (arp_table_select_not_used p _ Hno), Hfree.
Qed.

Lemma arp_resolve_miss_payload_witness :
  ∃ i,
    arp_table_freespace (arp_table fresh) = Some (i, arp_entry_zero)
    ∧ arp_resolve host_netif peer_pa (Some peer_payload) 2 true 1001 28
        (woken_at_once CondWoken) fresh
      = Some ({| arp_table :=
                   <[i := {| used := true; pa := peer_pa; ha := eth_addr_zero;
                             timestamp := 1001;
                             data := Some (take (N.to_nat 2) peer_payload); len := 2%N;
                             netif := Some host_netif |}]> (arp_table fresh);
                 arp_timestamp := arp_timestamp fresh |},
              (arp_send_request host_netif peer_pa 28).1, ARP_RESOLVE_QUERY, None).
Proof.
  apply (arp_resolve_miss_payload host_netif peer_pa peer_payload 2 1001 28
           (woken_at_once CondWoken) fresh).
  - apply reachable_init.
  - intros j e Hj Hu. apply lookup_replicate in Hj as [-> _]. discriminate Hu.
  - exists 0%nat, arp_entry_zero. split; reflexivity.
Defined.

(** ** A reply for an entry in the cache *)

Lemma arp_table_select_patrol (ts : time_t) (p : ip_addr_t) (tbl : list arp_entry)
    (i : nat) (e : arp_entry) :
  arp_table_select p tbl = Some (i, e) →
  ts - timestamp e ≤ ARP_TABLE_TIMEOUT_SEC →
  arp_table_select p (patrol_entry ts <$> tbl) = Some (i, e).
Proof.
  intros Hsel Hage.
  apply arp_table_select_Some in Hsel as (Hi & Hu & Hp & Hfirst).
  assert (patrol_entry ts e = e) as Hsame.
  { unfold patrol_entry.
    destruct (Z.gtb_spec (ts - timestamp e) ARP_TABLE_TIMEOUT_SEC); [lia|].
    by rewrite andb_false_r. }
  apply arp_table_select_complete; [|done|done|].
  - by rewrite list_lookup_fmap, Hi; simpl; rewrite Hsame.
  - intros j e' Hj He' [Hu' Hp'].
    rewrite list_lookup_fmap in He'.
    destruct (tbl !! j) as [ej|] eqn:Hej; [|done]. simpl in He'. injection He' as <-.
    unfold patrol_entry in *.
    destruct (used ej && (ts - timestamp ej >? ARP_TABLE_TIMEOUT_SEC)); [done|].
    by apply (Hfirst j ej).
Qed.

Lemma arp_table_update_hit (dev : netdev) (p : ip_addr_t) (h : eth_addr) (now : time_t)
    (tbl : list arp_entry) (i : nat) (e : arp_entry) :
  arp_table_select p tbl = Some (i, e) →
  (data e ≠ None → netif e ≠ None) →
  ∃ evs,
    arp_table_update dev p h now tbl
    = Some (<[i := {| used := true; pa := p; ha := h; timestamp := now; data := None;
                      len := match data e with Some _ => 0%N | None => len e end;
                      netif := netif e |}]> tbl, evs, 0)
    ∧ EvBroadcast i ∈ evs
    ∧ ∀ payload nif, data e = Some payload → netif e = Some nif →
        EvTx (dev_id (netif_dev nif)) ETHERNET_TYPE_IP payload (len e) h ∈ evs.
Proof.
  intros Hsel Hnif.
  destruct (arp_table_select_Some _ _ _ _ Hsel) as (Hi & Hu & Hp & _).
  unfold arp_table_update. rewrite Hsel, Hu, Hp.
  destruct (data e) as [payload|] eqn:Hd.
  - destruct (netif e) as [nif|] eqn:Hn; [|by destruct Hnif].
    eexists. split; [reflexivity|]. split.
    + apply elem_of_app. right. apply list_elem_of_further, list_elem_of_here.
    + intros ? ? [= <-] [= <-].
      destruct (bool_decide (dev_id (netif_dev nif) = dev_id dev)) eqn:Hdev; simpl.
      * apply bool_decide_eq_true in Hdev. rewrite Hdev. apply list_elem_of_here.
      * apply list_elem_of_further, list_elem_of_here.
  - eexists. split; [reflexivity|]. split; [apply list_elem_of_here|]. intros ? ? [=].
Qed.

(** The first locked part of [arp_rx] on a message whose sender address has
    an entry that a patrol, if one runs, does not evict. *)
Lemma arp_rx_update_merges (message : arp_ethernet) (dev : netdev) (now t : time_t)
    (st : arp_state) (i : nat) (e : arp_entry) :
  arp_table_select (spa message) (arp_table st) = Some (i, e) →
  (data e ≠ None → netif e ≠ None) →
  now - arp_timestamp st ≤ 10 ∨ now - timestamp e ≤ ARP_TABLE_TIMEOUT_SEC →
  ∃ st' evs,
    arp_rx_update message dev now t st = Some (st', evs, true)
    ∧ arp_table st' !! i
      = Some {| used := true; pa := spa message; ha := sha message; timestamp := t;
                data := None;
                len := match data e with Some _ => 0%N | None => len e end;
                netif := netif e |}
    ∧ (∀ j e', j ≠ i → arp_table st' !! j = Some e' → used e' = true →
         arp_table st !! j = Some e')
    ∧ EvBroadcast i ∈ evs
    ∧ (∀ payload nif, data e = Some payload → netif e = Some nif →
         EvTx (dev_id (netif_dev nif)) ETHERNET_TYPE_IP payload (len e) (sha message) ∈ evs).
Proof.
  intros Hsel Hnif Hfresh.
  assert (i < length (arp_table st))%nat as Hlt.
  { apply arp_table_select_Some in Hsel as (Hi & _). by eapply lookup_lt_Some. }
  unfold arp_rx_update, arp_table_patrol.
  destruct (Z.gtb_spec (now - arp_timestamp st) 10) as [Hsweep|Hquiet].
  - destruct Hfresh as [?|Hage]; [lia|]. simpl.
    pose proof (arp_table_patrol_from_fmap now 0 (arp_table st)) as Hmap.
    destruct (arp_table_patrol_from now 0 (arp_table st)) as [tbl1 ev1].
    simpl in *. subst tbl1.
    pose proof (arp_table_select_patrol now _ _ _ _ Hsel Hage) as Hsel1.
    destruct (arp_table_update_hit dev _ (sha message) t _ _ _ Hsel1 Hnif)
      as (ev2 & -> & Hbc & Htx).
    simpl. eexists _, _. split; [reflexivity|]. simpl. split_and!.
    + apply list_lookup_insert_eq. by rewrite length_fmap.
    + intros j e' Hj He' Hu'.
      rewrite list_lookup_insert_ne, list_lookup_fmap in He' by done.
      destruct (arp_table st !! j) as [ej|]; [|done]. simpl in He'. injection He' as <-.
      unfold patrol_entry in *.
      by destruct (used ej && (now - timestamp ej >? ARP_TABLE_TIMEOUT_SEC)).
    + apply list_elem_of_further. apply elem_of_app. by right.
    + intros payload nif Hd Hn. apply list_elem_of_further.
      apply elem_of_app. right. by apply Htx.
  - destruct (arp_table_update_hit dev _ (sha message) t _ _ _ Hsel Hnif)
      as (ev2 & -> & Hbc & Htx).
    simpl. eexists _, _. split; [reflexivity|]. simpl. split_and!.
    + by apply list_lookup_insert_eq.
    + intros j e' Hj He' Hu'. by rewrite list_lookup_insert_ne in He'.
    + done.
    + done.
Qed.

(** A call of [arp_resolve] that finds the entry of the address with an
    all-zero [ha] sends a REQUEST and waits on that slot; when it wakes it
    looks at the slot as the other threads have left it. *)
Lemma arp_resolve_waits (nif : netif_ip) (p : ip_addr_t) (buf : option (list byte))
    (size : N) (malloc_ok : bool) (t : time_t) (txr : Z) (w : wait_trace)
    (st : arp_state) (i : nat) (entry : arp_entry) :
  arp_table_select p (arp_table st) = Some (i, entry) →
  ha entry = ETHERNET_ADDR_ANY →
  arp_resolve nif p buf size malloc_ok t txr w st
  = '(st2, ev2) ← run_actions (concat (interrupted w) ++ woken_after w) st;
    Some (with_table st2 (arp_resolve_wake i (woken_ret w) (arp_table st2)).1.1,
          (arp_send_request nif p txr).1 ++ ev2,
          (arp_resolve_wake i (woken_ret w) (arp_table st2)).1.2,
          (arp_resolve_wake i (woken_ret w) (arp_table st2)).2).
Proof.
  intros Hsel Hha. unfold arp_resolve, arp_resolve_enter. rewrite Hsel, Hha.
  cbn [bool_decide decide_rel]. rewrite bool_decide_eq_true_2 by done.
  rewrite with_table_same.
  destruct (run_actions _ st) as [[st2 ev2]|]; [|done]. cbn [mbind option_bind].
  by destruct (arp_resolve_wake i (woken_ret w) (arp_table st2)) as [[tbl3 c] o].
Qed.

Lemma run_actions_snoc (before : list action) (a : action) (st stm : arp_state)
    (evm : list event) :
  run_actions before st = Some (stm, evm) →
  run_actions (before ++ [a]) st = '(st', ev) ← run_action a stm; Some (st', evm ++ ev).
Proof.
  revert st evm. induction before as [|b before IH]; intros st evm Hrun; simpl in Hrun.
  - injection Hrun as <- <-. simpl.
    destruct (run_action a st) as [[st' ev]|]; [|done]. simpl. by rewrite app_nil_r.
  - simpl. destruct (run_action b st) as [[st1 ev1]|]; [|done]. simpl in *.
    destruct (run_actions before st1) as [[st2 ev2]|] eqn:Hrest; [|done]. simpl in Hrun.
    injection Hrun as <- <-. rewrite (IH st1 ev2 Hrest).
    destruct (run_action a st2) as [[st' ev]|]; [|done]. simpl. by rewrite app_assoc.
Qed.

(** X15: the rendezvous.  A caller of [arp_resolve] on a reachable cache
    finds the entry of the address with an all-zero [ha] and waits on its
    slot.  Whatever other threads do first during the wait (EINTR rounds
    included), suppose the last locked section that runs before the
    caller wakes is the first locked part of an [arp_rx] whose message has
    that address as sender, at a moment when the slot waited on is the
    first used entry of the address and is not evicted by the patrol of
    that [arp_rx].  If the wait then returns 0 the caller gets FOUND with
    the sender link address of the message, and the entry holds that
    address and the time of the merge.  If the wait returns ETIMEDOUT all
    the same, the caller clears the entry that was just resolved and gets
    ERROR. *)
Theorem arp_resolve_wait_reply (nif : netif_ip) (p : ip_addr_t) (buf : option (list byte))
    (size : N) (malloc_ok : bool) (t : time_t) (txr : Z) (w : wait_trace)
    (before : list action) (message : arp_ethernet) (dev : netdev) (now t1 : time_t)
    (st stm : arp_state) (evm : list event) (i : nat) (entry entrym : arp_entry) :
  reachable st →
  arp_table_select p (arp_table st) = Some (i, entry) →
  ha entry = ETHERNET_ADDR_ANY →
  concat (interrupted w) ++ woken_after w = before ++ [ActRxUpdate message dev now t1] →
  run_actions before st = Some (stm, evm) →
  arp_table_select p (arp_table stm) = Some (i, entrym) →
  spa message = p →
  now - arp_timestamp stm ≤ 10 ∨ now - timestamp entrym ≤ ARP_TABLE_TIMEOUT_SEC →
  ∃ st' evs,
    arp_resolve nif p buf size malloc_ok t txr w st
    = Some (st', (arp_send_request nif p txr).1 ++ evm ++ evs,
            (if woken_ret w is CondTimedOut then ARP_RESOLVE_ERROR else ARP_RESOLVE_FOUND),
            (if woken_ret w is CondTimedOut then None else Some (sha message)))
    ∧ EvBroadcast i ∈ evs
    ∧ arp_table st' !! i
      = Some (if woken_ret w is CondTimedOut then arp_entry_zero
              else {| used := true; pa := p; ha := sha message; timestamp := t1;
                      data := None; len := 0%N; netif := netif entrym |}).
Proof.
  intros Hst Hsel Hha Hw Hbefore Hselm Hspa Hfresh.
  pose proof (reachable_ok _ (reachable_run _ _ _ _ Hst Hbefore)) as Hokm. subst p.
  destruct (arp_table_select_Some _ _ _ _ Hselm) as (Hi & Hu & Hp & _).
  destruct (table_ok_lookup _ _ _ Hokm Hi) as (_ & Hlen & Hnif).
  destruct (arp_rx_update_merges message dev now t1 stm i entrym Hselm Hnif Hfresh)
    as (st' & evs & Hupd & Hi' & _ & Hbc & _).
  assert ((match data entrym with Some _ => 0%N | None => len entrym end) = 0%N) as Hlen0.
  { destruct (data entrym); [done|]. by apply Hlen. }
  rewrite Hlen0 in Hi'.
  rewrite (arp_resolve_waits _ _ _ _ _ _ _ _ _ _ _ Hsel Hha), Hw.
  rewrite (run_actions_snoc _ _ _ _ _ Hbefore).
  cbn [run_action mbind option_bind]. rewrite Hupd. cbn [mbind option_bind].
  unfold arp_resolve_wake. rewrite Hi'. cbn [used negb orb ha].
  exists (with_table st'
            (if woken_ret w is CondTimedOut
             then <[i := arp_entry_zero]> (arp_table st') else arp_table st')), evs.
  destruct (woken_ret w); simpl.
  - split_and!; [done | done | done].
  - split_and!; [done | done |].
    apply list_lookup_insert_eq. by eapply lookup_lt_Some.
Qed.

Lemma reachable_querying : reachable querying.
Proof.
  exists 1000, [ActResolveEnter host_netif peer_pa None 0 true 1001 28],
    (peer_request_sent ++ []).
  vm_compute. reflexivity.
Defined.

Lemma arp_resolve_wait_reply_witness :
  ∃ st' evs,
    arp_resolve host_netif peer_pa None 0 true 1002 28
      {| interrupted := [[]];
         woken_after := [ActRxUpdate (arp_ethernet_cast peer_reply) host_dev 1002 1002];
         woken_ret := CondWoken |} querying
    = Some (st', (arp_send_request host_netif peer_pa 28).1 ++ [] ++ evs,
            ARP_RESOLVE_FOUND, Some (sha (arp_ethernet_cast peer_reply)))
    ∧ EvBroadcast 0 ∈ evs
    ∧ arp_table st' !! 0%nat
      = Some {| used := true; pa := peer_pa; ha := sha (arp_ethernet_cast peer_reply);
                timestamp := 1002; data := None; len := 0%N;
                netif := netif (peer_query_entry 1001) |}.
Proof.
  apply (arp_resolve_wait_reply host_netif peer_pa None 0 true 1002 28
           {| interrupted := [[]];
              woken_after := [ActRxUpdate (arp_ethernet_cast peer_reply) host_dev 1002 1002];
              woken_ret := CondWoken |}
           [] (arp_ethernet_cast peer_reply) host_dev 1002 1002 querying querying []
           0%nat (peer_query_entry 1001) (peer_query_entry 1001)).
  - exact reachable_querying.
  - vm_compute. reflexivity.
  - reflexivity.
  - reflexivity.
  - reflexivity.
  - vm_compute. reflexivity.
  - reflexivity.
  - left. simpl. lia.
Defined.

(** ** Timing out and asking again *)

Lemma arp_resolve_enter_miss (nif : netif_ip) (p : ip_addr_t) (size : N) (malloc_ok : bool)
    (t : time_t) (txr : Z) (tbl : list arp_entry) :
  table_ok tbl →
  (∀ j e, tbl !! j = Some e → used e = true → pa e ≠ p) →
  (∃ j e, tbl !! j = Some e ∧ used e = false) →
  ∃ i,
    arp_table_freespace tbl = Some (i, arp_entry_zero)
    ∧ arp_resolve_enter nif p None size malloc_ok t txr tbl
      = (<[i := {| used := true; pa := p; ha := eth_addr_zero; timestamp := t;
                   data := None; len := 0%N; netif := Some nif |}]> tbl,
         (arp_send_request nif p txr).1, Return ARP_RESOLVE_QUERY None).
Proof.
  intros Hok Hno (j0 & e0 & Hj0 & Hu0).
  destruct (arp_table_freespace_free _ j0 e0 Hj0 Hu0) as (i & e & Hfree).
  destruct (arp_table_freespace_Some _ _ _ Hfree) as (Hi & Hu & _).
  destruct (table_ok_lookup _ _ _ Hok Hi) as (Hz & _). specialize (Hz Hu). subst e.
  exists i. split; [done|].
  unfold arp_resolve_enter.
  by rewrite (arp_table_select_not_used p _ Hno), Hfree.
Qed.

(** X16: timing out and asking again.  In a reachable cache whose only
    used entry for the address has an all-zero [ha], a call of
    [arp_resolve] whose wait times out (no other thread having run) sends
    one ARP REQUEST, returns ERROR and leaves the slot as in static
    storage, whatever payload the caller passed; the next call for the
    address, without payload, is a miss again: it returns QUERY and sends
    a REQUEST. *)
Theorem arp_resolve_timeout_retry (nif : netif_ip) (p : ip_addr_t) (buf : option (list byte))
    (size : N) (malloc_ok : bool) (t : time_t) (txr : Z) (st : arp_state) (i : nat)
    (entry : arp_entry) :
  reachable st →
  arp_table_select p (arp_table st) = Some (i, entry) →
  ha entry = ETHERNET_ADDR_ANY →
  (∀ j e, j ≠ i → arp_table st !! j = Some e → used e = true → pa e ≠ p) →
  ∃ st',
    arp_resolve nif p buf size malloc_ok t txr (woken_at_once CondTimedOut) st
    = Some (st', (arp_send_request nif p txr).1, ARP_RESOLVE_ERROR, None)
    ∧ arp_table st' = <[i := arp_entry_zero]> (arp_table st)
    ∧ ∀ nif2 size2 malloc_ok2 t2 txr2 w2,
        ∃ st'',
          arp_resolve nif2 p None size2 malloc_ok2 t2 txr2 w2 st'
          = Some (st'', (arp_send_request nif2 p txr2).1, ARP_RESOLVE_QUERY, None).
Proof.
  intros Hst Hsel Hha Hothers. apply reachable_ok in Hst.
  destruct (arp_table_select_Some _ _ _ _ Hsel) as (Hi & Hu & Hp & _).
  pose proof (table_ok_lookup _ _ _ Hst Hi) as Hentry.
  assert (i < length (arp_table st))%nat as Hlt by (by eapply lookup_lt_Some).
  exists (with_table st (<[i := arp_entry_zero]> (arp_table st))). split_and!.
  - unfold arp_resolve, arp_resolve_enter. rewrite Hsel, Hha. simpl.
    unfold arp_resolve_wake. rewrite Hi, Hu. simpl.
    rewrite (arp_entry_clear_zero _ Hentry).
    unfold arp_send_request. simpl. reflexivity.
  - done.
  - intros nif2 size2 ok2 t2 txr2 w2.
    destruct (arp_resolve_enter_miss nif2 p size2 ok2 t2 txr2
                (<[i := arp_entry_zero]> (arp_table st))) as (i2 & _ & Henter).
    + apply Forall_insert; [done | apply entry_ok_zero].
    + intros j e Hj Hue.
      apply list_lookup_insert_Some in Hj as [(<- & <- & _)|[Hne Hj]]; [done|].
      by apply (Hothers j e).
    + exists i, arp_entry_zero. split; [by apply list_lookup_insert_eq | done].
    + unfold arp_resolve. simpl. rewrite Henter. by eexists.
Qed.

Lemma arp_resolve_timeout_retry_witness :
  ∃ st',
    arp_resolve host_netif peer_pa (Some peer_payload) 2 true 1002 28
      (woken_at_once CondTimedOut) querying
    = Some (st', (arp_send_request host_netif peer_pa 28).1, ARP_RESOLVE_ERROR, None)
    ∧ arp_table st' = <[0%nat := arp_entry_zero]> (arp_table querying)
    ∧ ∀ nif2 size2 malloc_ok2 t2 txr2 w2,
        ∃ st'',
          arp_resolve nif2 peer_pa None size2 malloc_ok2 t2 txr2 w2 st'
          = Some (st'', (arp_send_request nif2 peer_pa txr2).1, ARP_RESOLVE_QUERY, None).
Proof.
  apply (arp_resolve_timeout_retry host_netif peer_pa (Some peer_payload) 2 true 1002 28
           querying 0%nat (peer_query_entry 1001)).
  - exact reachable_querying.
  - vm_compute. reflexivity.
  - reflexivity.
  - intros j e Hne Hj Hu.
    change (arp_table querying)
      with (<[0%nat := peer_query_entry 1001]> (arp_table fresh)) in Hj.
    rewrite list_lookup_insert_ne in Hj by done.
    apply lookup_replicate in Hj as [-> _]. discriminate Hu.
Defined.

(** ** A payload handed to the resolver is delivered by the reply *)

(** X17: a payload handed to the resolver is delivered by the reply.  In a
    reachable cache with a free slot and no used entry for the address,
    [arp_resolve] called with a payload returns QUERY.  When the next
    thing that touches the cache (no locked section of any other call in
    between) is an [arp_rx] that gets a well-formed message whose sender
    address is that address, not more than 300 seconds after the entry
    was made, that [arp_rx] transmits the saved copy of the payload with
    EtherType IPv4 on the device of the resolver's interface to the sender
    link address of the message, and leaves the entry resolved with no
    payload; on the cache as that [arp_rx] leaves it, [arp_resolve] for
    the address returns FOUND with that link address (if it is not
    all-zero) without transmitting. *)
Theorem arp_resolve_then_reply (nif : netif_ip) (p : ip_addr_t) (octets : list byte)
    (size : N) (t : time_t) (txr : Z) (w : wait_trace) (packet : list byte) (dev : netdev)
    (now t1 : time_t) (others : list action) (nif_rx : option netif_ip) (t2 : time_t)
    (txr2 : Z) (st : arp_state) :
  reachable st →
  (∀ j e, arp_table st !! j = Some e → used e = true → pa e ≠ p) →
  (∃ j e, arp_table st !! j = Some e ∧ used e = false) →
  (28 ≤ length packet)%nat →
  ntoh16 (hrd (hdr (arp_ethernet_cast packet))) = 1 →
  ntoh16 (pro (hdr (arp_ethernet_cast packet))) = 0x0800 →
  byte_to_Z (hln (hdr (arp_ethernet_cast packet))) = 6 →
  byte_to_Z (pln (hdr (arp_ethernet_cast packet))) = 4 →
  spa (arp_ethernet_cast packet) = p →
  now - t ≤ ARP_TABLE_TIMEOUT_SEC →
  ∃ st1 st2 evs i,
    arp_resolve nif p (Some octets) size true t txr w st
    = Some (st1, (arp_send_request nif p txr).1, ARP_RESOLVE_QUERY, None)
    ∧ arp_rx packet dev now t1 others nif_rx t2 txr2 st1 = Some (st2, evs)
    ∧ EvTx (dev_id (netif_dev nif)) ETHERNET_TYPE_IP (take (N.to_nat size) octets) size
        (sha (arp_ethernet_cast packet)) ∈ evs
    ∧ arp_table st2 !! i
      = Some {| used := true; pa := p; ha := sha (arp_ethernet_cast packet);
                timestamp := t1; data := None; len := 0%N; netif := Some nif |}
    ∧ (sha (arp_ethernet_cast packet) ≠ ETHERNET_ADDR_ANY →
       ∀ nif3 buf3 size3 malloc_ok3 t3 txr3 w3,
         arp_resolve nif3 p buf3 size3 malloc_ok3 t3 txr3 w3 st2
         = Some (st2, [], ARP_RESOLVE_FOUND, Some (sha (arp_ethernet_cast packet)))).
Proof.
  intros Hst Hno (j0 & e0 & Hj0 & Hu0) Hlen Hhrd Hpro Hhln Hpln Hspa Hage.
  apply reachable_ok in Hst.
  destruct (arp_table_freespace_free _ j0 e0 Hj0 Hu0) as (i & e & Hfree).
  destruct (arp_table_freespace_Some _ _ _ Hfree) as (Hi & Hu & _).
  destruct (table_ok_lookup _ _ _ Hst Hi) as (Hz & _). specialize (Hz Hu). subst e.
  assert (i < length (arp_table st))%nat as Hlt by (by eapply lookup_lt_Some).
  pose (e1 := {| used := true; pa := p; ha := eth_addr_zero; timestamp := t;
                 data := Some (take (N.to_nat size) octets); len := size;
                 netif := Some nif |}).
  pose (st1 := with_table st (<[i := e1]> (arp_table st))).
  assert (arp_table_select (spa (arp_ethernet_cast packet)) (arp_table st1) = Some (i, e1))
    as Hsel1.
  { rewrite Hspa. apply arp_table_select_complete; [|done|done|].
    - by apply list_lookup_insert_eq.
    - intros j e' Hj He' [Hu' Hp']. simpl in He'.
      rewrite list_lookup_insert_ne in He' by lia.
      by apply (Hno j e'). }
  destruct (arp_rx_update_merges (arp_ethernet_cast packet) dev now t1 st1 i e1 Hsel1)
    as (st2 & ev1 & Hupd & Hi2 & Hold & _ & Htx).
  { done. }
  { right. exact Hage. }
  rewrite Hspa in Hi2. change (netif e1) with (Some nif) in Hi2.
  change (data e1) with (Some (take (N.to_nat size) octets)) in Hi2. cbv iota in Hi2.
  specialize (Htx _ nif eq_refl eq_refl). change (len e1) with size in Htx.
  assert (∃ evs, arp_rx packet dev now t1 others nif_rx t2 txr2 st1 = Some (st2, evs)
                 ∧ ∀ ev, ev ∈ ev1 → ev ∈ evs) as (evs & Hrx & Hsub).
  { rewrite arp_rx_valid by done. rewrite Hupd. simpl.
    destruct nif_rx as [n|]; [|by eexists].
    destruct (bool_decide _); [|by eexists].
    eexists. split; [reflexivity|]. intros ev Hev. apply elem_of_app. by left. }
  exists st1, st2, evs, i. split_and!.
  - unfold arp_resolve, arp_resolve_enter.
    by rewrite (arp_table_select_not_used p _ Hno), Hfree.
  - done.
  - by apply Hsub.
  - done.
  - intros Hha nif3 buf3 size3 ok3 t3 txr3 w3.
    unfold arp_resolve, arp_resolve_enter.
    rewrite (arp_table_select_complete p (arp_table st2) i _ Hi2); [|done|done|].
    + simpl. rewrite bool_decide_eq_false_2 by done. by rewrite with_table_same.
    + intros j e' Hj He' [Hu' Hp'].
      pose proof (Hold j e' ltac:(lia) He' Hu') as Hst1. simpl in Hst1.
      rewrite list_lookup_insert_ne in Hst1 by lia.
      by apply (Hno j e').
Qed.

Lemma arp_resolve_then_reply_witness :
  ∃ st1 st2 evs i,
    arp_resolve host_netif peer_pa (Some peer_payload) 2 true 1001 28
      (woken_at_once CondWoken) fresh
    = Some (st1, (arp_send_request host_netif peer_pa 28).1, ARP_RESOLVE_QUERY, None)
    ∧ arp_rx peer_reply host_dev 1002 1002 [] (Some host_netif) 1002 28 st1 = Some (st2, evs)
    ∧ EvTx (dev_id (netif_dev host_netif)) ETHERNET_TYPE_IP
        (take (N.to_nat 2) peer_payload) 2 (sha (arp_ethernet_cast peer_reply)) ∈ evs
    ∧ arp_table st2 !! i
      = Some {| used := true; pa := peer_pa; ha := sha (arp_ethernet_cast peer_reply);
                timestamp := 1002; data := None; len := 0%N; netif := Some host_netif |}
    ∧ (sha (arp_ethernet_cast peer_reply) ≠ ETHERNET_ADDR_ANY →
       ∀ nif3 buf3 size3 malloc_ok3 t3 txr3 w3,
         arp_resolve nif3 peer_pa buf3 size3 malloc_ok3 t3 txr3 w3 st2
         = Some (st2, [], ARP_RESOLVE_FOUND, Some (sha (arp_ethernet_cast peer_reply)))).
Proof.
  apply (arp_resolve_then_reply host_netif peer_pa peer_payload 2 1001 28
           (woken_at_once CondWoken) peer_reply host_dev 1002 1002 [] (Some host_netif)
           1002 28 fresh).
  - apply reachable_init.
  - intros j e Hj Hu. apply lookup_replicate in Hj as [-> _]. discriminate Hu.
  - exists 0%nat, arp_entry_zero. split; reflexivity.
  - simpl. lia.
  - reflexivity.
  - reflexivity.
  - reflexivity.
  - reflexivity.
  - reflexivity.
  - unfold ARP_TABLE_TIMEOUT_SEC. lia.
Defined.

(** ** What [arp_rx] does with a message *)

Lemma arp_rx_update_cases (message : arp_ethernet) (dev : netdev) (now t : time_t)
    (st st' : arp_state) (evs : list event) (merge : bool) :
  arp_rx_update message dev now t st = Some (st', evs, merge) →
  ∃ tblp evp ev2 r,
    (if now - arp_timestamp st >? 10
     then tblp = patrol_entry now <$> arp_table st
          ∧ evp = EvPatrol now :: (arp_table_patrol_from now 0 (arp_table st)).2
          ∧ arp_timestamp st' = now
     else tblp = arp_table st ∧ evp = [] ∧ arp_timestamp st' = arp_timestamp st)
    ∧ arp_table_update dev (spa message) (sha message) t tblp = Some (arp_table st', ev2, r)
    ∧ merge = (r =? 0) ∧ evs = evp ++ ev2.
Proof.
  unfold arp_rx_update, arp_table_patrol.
  destruct (now - arp_timestamp st >? 10); simpl.
  - pose proof (arp_table_patrol_from_fmap now 0 (arp_table st)) as Hmap.
    destruct (arp_table_patrol_from now 0 (arp_table st)) as [tbl1 ev1].
    simpl in *. subst tbl1.
    destruct (arp_table_update _ _ _ _ _) as [[[tbl2 ev2] r]|] eqn:Hupd; [|done].
    simpl. intros [= <- <- <-]. by eexists _, _, ev2, r.
  - destruct (arp_table_update _ _ _ _ _) as [[[tbl2 ev2] r]|] eqn:Hupd; [|done].
    simpl. intros [= <- <- <-]. by eexists _, _, ev2, r.
Qed.

Lemma arp_table_update_used (dev : netdev) (p : ip_addr_t) (h : eth_addr) (now : time_t)
    (tbl tbl' : list arp_entry) (evs : list event) (r : Z) :
  arp_table_update dev p h now tbl = Some (tbl', evs, r) →
  ∀ i e', tbl' !! i = Some e' → used e' = true →
          ∃ e, tbl !! i = Some e ∧ used e = true ∧ pa e = pa e'.
Proof.
  unfold arp_table_update.
  destruct (arp_table_select p tbl) as [[k ek]|] eqn:Hsel.
  - apply arp_table_select_Some in Hsel as (Hk & Hu & Hp & _).
    assert (∀ d l, ∀ i e',
              <[k := {| used := used ek; pa := pa ek; ha := h; timestamp := now;
                        data := d; len := l; netif := netif ek |}]> tbl !! i = Some e' →
              used e' = true → ∃ e, tbl !! i = Some e ∧ used e = true ∧ pa e = pa e')
      as Hins.
    { intros d l i e' He' Hu'.
      apply list_lookup_insert_Some in He' as [(<- & <- & _)|[_ He']]; by eexists. }
    destruct (data ek).
    + destruct (netif ek) eqn:Hn; [|done]. intros [= <- <- <-]. apply Hins.
    + intros [= <- <- <-]. apply Hins.
  - intros [= <- <- <-] i e' He' Hu'. by exists e'.
Qed.

Lemma arp_table_update_tx (dev : netdev) (p : ip_addr_t) (h : eth_addr) (now : time_t)
    (tbl tbl' : list arp_entry) (evs : list event) (r : Z) (d : nat) (ty : Z)
    (frame : list byte) (sz : N) (dst : eth_addr) :
  arp_table_update dev p h now tbl = Some (tbl', evs, r) →
  EvTx d ty frame sz dst ∈ evs → ty = ETHERNET_TYPE_IP ∧ dst = h.
Proof.
  unfold arp_table_update.
  destruct (arp_table_select p tbl) as [[k ek]|].
  - destruct (data ek).
    + destruct (netif ek); [|done]. intros [= <- <- <-] Hin.
      apply elem_of_app in Hin as [Hin|Hin].
      * destruct (negb _); [|by apply elem_of_nil in Hin].
        apply list_elem_of_singleton in Hin. done.
      * apply elem_of_cons in Hin as [[= -> -> -> -> ->]|Hin]; [done|].
        apply list_elem_of_singleton in Hin. done.
    + intros [= <- <- <-] Hin. apply list_elem_of_singleton in Hin. done.
  - intros [= <- <- <-] Hin. by apply elem_of_nil in Hin.
Qed.

(** X18: a message that is not for this host never adds to the cache and
    is never answered.  When the device has no IPv4 interface, or its
    unicast address is not the target address of the message, every slot
    that is used after [arp_rx] was used before with the same address, and
    [arp_rx] transmits no ARP message. *)
Theorem arp_rx_not_for_us (packet : list byte) (dev : netdev) (now t1 : time_t)
    (others : list action) (nif : option netif_ip) (t2 : time_t) (txr : Z)
    (st st' : arp_state) (evs : list event) :
  (∀ n, nif = Some n → unicast n ≠ tpa (arp_ethernet_cast packet)) →
  arp_rx packet dev now t1 others nif t2 txr st = Some (st', evs) →
  (∀ i e', arp_table st' !! i = Some e' → used e' = true →
           ∃ e, arp_table st !! i = Some e ∧ used e = true ∧ pa e = pa e')
  ∧ (∀ d frame sz dst, EvTx d ETHERNET_TYPE_ARP frame sz dst ∉ evs).
Proof.
  intros Hnot. unfold arp_rx.
  repeat (match goal with |- context [if ?c then Some (st, []) else _] => destruct c end;
          [intros [= <- <-]; split;
             [intros i e' He' Hu'; by exists e'
             |intros d frame sz dst Hin; by apply elem_of_nil in Hin]|]).
  destruct (arp_rx_update _ dev now t1 st) as [[[st1 ev1] merge]|] eqn:Hupd; [|done].
  simpl.
  assert (Some (st1, ev1) = Some (st', evs) →
          (∀ i e', arp_table st' !! i = Some e' → used e' = true →
                   ∃ e, arp_table st !! i = Some e ∧ used e = true ∧ pa e = pa e')
          ∧ (∀ d frame sz dst, EvTx d ETHERNET_TYPE_ARP frame sz dst ∉ evs)) as Hend.
  { intros [= <- <-].
    apply arp_rx_update_cases in Hupd as (tblp & evp & ev2 & r & Hp & Hu2 & _ & ->).
    split.
    - intros i e' He' Hu'.
      destruct (arp_table_update_used _ _ _ _ _ _ _ _ Hu2 i e' He' Hu')
        as (e & He & Hue & Hpe).
      destruct (now - arp_timestamp st >? 10).
      + destruct Hp as (-> & _ & _). rewrite list_lookup_fmap in He.
        destruct (arp_table st !! i) as [e0|]; [|done]. simpl in He. injection He as <-.
        exists e0. unfold patrol_entry in *.
        by destruct (used e0 && (now - timestamp e0 >? ARP_TABLE_TIMEOUT_SEC)).
      + destruct Hp as (-> & _ & _). by exists e.
    - intros d frame sz dst Hin. apply elem_of_app in Hin as [Hin|Hin].
      + destruct (now - arp_timestamp st >? 10).
        * destruct Hp as (_ & -> & _). apply elem_of_cons in Hin as [?|Hin]; [done|].
          by destruct (arp_table_patrol_from_events _ _ _ _ Hin) as (? & ? & ? & _).
        * destruct Hp as (_ & -> & _). by apply elem_of_nil in Hin.
      + by destruct (arp_table_update_tx _ _ _ _ _ _ _ _ _ _ _ _ _ Hu2 Hin). }
  destruct nif as [n|]; [|done].
  rewrite bool_decide_eq_false_2 by (by apply Hnot). done.
Qed.

Lemma arp_rx_not_for_us_witness :
  ∃ st' evs,
    arp_rx third_request host_dev 1001 1001 [] (Some host_netif) 1001 28 resolved
    = Some (st', evs)
    ∧ (∀ i e', arp_table st' !! i = Some e' → used e' = true →
               ∃ e, arp_table resolved !! i = Some e ∧ used e = true ∧ pa e = pa e')
    ∧ (∀ d frame sz dst, EvTx d ETHERNET_TYPE_ARP frame sz dst ∉ evs).
Proof.
  exists resolved, []. split; [vm_compute; reflexivity|].
  apply (arp_rx_not_for_us third_request host_dev 1001 1001 [] (Some host_netif) 1001 28
           resolved resolved []).
  - intros n [= <-]. discriminate.
  - vm_compute. reflexivity.
Defined.

Lemma arp_table_update_merged (dev : netdev) (p : ip_addr_t) (h : eth_addr) (now : time_t)
    (tbl tbl' : list arp_entry) (evs : list event) (r : Z) :
  arp_table_update dev p h now tbl = Some (tbl', evs, r) → (r =? 0) = true →
  ∃ i e', tbl' !! i = Some e' ∧ used e' = true ∧ pa e' = p ∧ ha e' = h.
Proof.
  unfold arp_table_update.
  destruct (arp_table_select p tbl) as [[k ek]|] eqn:Hsel; [|by intros [= <- <- <-]].
  apply arp_table_select_Some in Hsel as (Hk & Hu & Hp & _).
  assert (k < length tbl)%nat as Hlt by (by eapply lookup_lt_Some).
  destruct (data ek).
  - destruct (netif ek); [|done]. intros [= <- <- <-] _.
    eexists k, _. split; [by apply list_lookup_insert_eq|]. done.
  - intros [= <- <- <-] _.
    eexists k, _. split; [by apply list_lookup_insert_eq|]. done.
Qed.

Lemma arp_table_update_unused (dev : netdev) (p : ip_addr_t) (h : eth_addr) (now : time_t)
    (tbl tbl' : list arp_entry) (evs : list event) (r : Z) (i : nat) (e : arp_entry) :
  arp_table_update dev p h now tbl = Some (tbl', evs, r) →
  tbl !! i = Some e → used e = false → tbl' !! i = Some e.
Proof.
  unfold arp_table_update. intros Hupd Hi Hu.
  destruct (arp_table_select p tbl) as [[k ek]|] eqn:Hsel;
    [|by injection Hupd as <- <- <-].
  apply arp_table_select_Some in Hsel as (Hk & Huk & _).
  assert (k ≠ i) as Hne by (intros ->; congruence).
  destruct (data ek).
  - destruct (netif ek); [|done]. injection Hupd as <- <- <-.
    by rewrite list_lookup_insert_ne.
  - injection Hupd as <- <- <-. by rewrite list_lookup_insert_ne.
Qed.

(** What the Insert of [arp_rx] leaves when a slot is free. *)
Lemma arp_rx_insert_binding (message : arp_ethernet) (t : time_t) (st : arp_state)
    (j : nat) (e : arp_entry) :
  table_ok (arp_table st) →
  arp_table st !! j = Some e → used e = false →
  ∃ i,
    arp_table_freespace (arp_table st) = Some (i, arp_entry_zero)
    ∧ arp_rx_insert message t st
      = (with_table st
           (<[i := {| used := true; pa := spa message; ha := sha message; timestamp := t;
                      data := None; len := 0%N; netif := None |}]> (arp_table st)),
         [EvBroadcast i]).
Proof.
  intros Hok Hj Hu.
  destruct (arp_table_freespace_free _ j e Hj Hu) as (i & e0 & Hfree).
  destruct (arp_table_freespace_Some _ _ _ Hfree) as (Hi & Hu0 & _).
  destruct (table_ok_lookup _ _ _ Hok Hi) as (Hz & _). specialize (Hz Hu0). subst e0.
  exists i. split; [done|].
  unfold arp_rx_insert, arp_table_insert. by rewrite Hfree.
Qed.

(** X19: a REQUEST for this host is answered and its sender is learned.
    For a well-formed REQUEST whose target address is the unicast address
    of the device's interface, [arp_rx] on a reachable cache ends with one
    transmit of a 28-octet ARP REPLY on the interface's device to the
    sender link address, from the device's link address and the
    interface's unicast address to the sender's pair; this also when the
    cache is full and whatever other threads do between the two locked
    parts.  If no other thread runs between the two locked parts and the
    cache had a slot that was free or held the sender address, it
    afterwards has a used entry binding the sender address to the sender
    link address. *)
Theorem arp_rx_request_for_us (packet : list byte) (dev : netdev) (now t1 : time_t)
    (others : list action) (n : netif_ip) (t2 : time_t) (txr : Z) (st : arp_state) :
  reachable st →
  (28 ≤ length packet)%nat →
  ntoh16 (hrd (hdr (arp_ethernet_cast packet))) = 1 →
  ntoh16 (pro (hdr (arp_ethernet_cast packet))) = 0x0800 →
  byte_to_Z (hln (hdr (arp_ethernet_cast packet))) = 6 →
  byte_to_Z (pln (hdr (arp_ethernet_cast packet))) = 4 →
  ntoh16 (op (hdr (arp_ethernet_cast packet))) = 1 →
  unicast n = tpa (arp_ethernet_cast packet) →
  ∃ st' evs frame,
    arp_rx packet dev now t1 others (Some n) t2 txr st
    = Some (st', evs ++ [EvTx (dev_id (netif_dev n)) ETHERNET_TYPE_ARP frame 28
                           (sha (arp_ethernet_cast packet))])
    ∧ length frame = 28%nat
    ∧ arp_decode frame
      = {| f_hrd := 1; f_pro := 0x0800; f_hln := 6; f_pln := 4; f_op := 2;
           f_sha := addr (netif_dev n); f_spa := unicast n;
           f_tha := sha (arp_ethernet_cast packet);
           f_tpa := spa (arp_ethernet_cast packet) |}
    ∧ (others = [] →
       (∃ j e, arp_table st !! j = Some e
               ∧ (used e = false ∨ pa e = spa (arp_ethernet_cast packet))) →
       ∃ i e', arp_table st' !! i = Some e' ∧ used e' = true
               ∧ pa e' = spa (arp_ethernet_cast packet)
               ∧ ha e' = sha (arp_ethernet_cast packet)).
Proof.
  intros Hst Hlen Hhrd Hpro Hhln Hpln Hop Hfor. apply reachable_ok in Hst.
  rewrite arp_rx_valid by done.
  remember (arp_ethernet_cast packet) as message eqn:Hmessage. clear Hmessage.
  destruct (arp_rx_update_ok message dev now t1 st Hst) as (st1 & ev1 & merge & Hupd & Hok1).
  rewrite Hupd. cbn -[arp_send_reply arp_rx_insert run_actions].
  rewrite bool_decide_eq_true_2 by done. rewrite Hop.
  cbn -[arp_send_reply arp_rx_insert run_actions].
  pose proof (arp_rx_update_cases _ _ _ _ _ _ _ _ Hupd)
    as (tblp & evp & ev2 & r & Hp & Hu2 & Hm & ->).
  assert (∃ frame,
            (arp_send_reply n (sha message) (spa message) (sha message) txr).1
            = [EvTx (dev_id (netif_dev n)) ETHERNET_TYPE_ARP frame 28 (sha message)]
            ∧ length frame = 28%nat
            ∧ arp_decode frame
              = {| f_hrd := 1; f_pro := 0x0800; f_hln := 6; f_pln := 4; f_op := 2;
                   f_sha := addr (netif_dev n); f_spa := unicast n;
                   f_tha := sha message; f_tpa := spa message |})
    as (frame & Hreply & Hflen & Hfdec).
  { eexists. split; [reflexivity|]. split.
    - apply arp_ethernet_bytes_length.
    - unfold arp_decode. rewrite arp_ethernet_cast_bytes. reflexivity. }
  rewrite Hreply.
  destruct merge.
  - exists st1, (evp ++ ev2), frame. simpl. split_and!; [done | done | done |].
    intros _ _. by apply (arp_table_update_merged _ _ _ _ _ _ _ _ Hu2).
  - destruct (run_actions_ok others st1 Hok1) as (st2 & evo & Hrun & Hok2).
    rewrite Hrun. cbn -[arp_send_reply arp_rx_insert].
    destruct (arp_rx_insert message t2 st2) as [st3 ev3] eqn:Hins.
    cbn -[arp_send_reply].
    exists st3, ((evp ++ ev2) ++ evo ++ ev3), frame.
    split_and!; [by rewrite <- !app_assoc | done | done |].
    intros -> (j & e & Hj & Hfree). simpl in Hrun. injection Hrun as <- <-.
    destruct (arp_table_update_not_merged _ _ _ _ _ _ _ _ Hu2 (eq_sym Hm)) as [Htbl Hsel].
    assert (∃ e1, arp_table st1 !! j = Some e1 ∧ used e1 = false) as (e1 & Hj1 & Hu1).
    { rewrite Htbl.
      assert (∀ x, tblp !! j = Some x → used x = false ∨ pa x = spa message → used x = false)
        as Hfreep.
      { intros x Hx [?|Hpx]; [done|].
        destruct (used x) eqn:Hux; [|done].
        by destruct (arp_table_select_None _ _ Hsel j x Hx Hux). }
      destruct (now - arp_timestamp st >? 10).
      - destruct Hp as (-> & _ & _).
        exists (patrol_entry now e).
        assert ((patrol_entry now <$> arp_table st) !! j = Some (patrol_entry now e)) as Hpj
          by (by rewrite list_lookup_fmap, Hj).
        split; [done|]. apply (Hfreep _ Hpj).
        unfold patrol_entry.
        destruct (used e && (now - timestamp e >? ARP_TABLE_TIMEOUT_SEC)); [by left|done].
      - destruct Hp as (-> & _ & _). exists e. split; [done|]. by apply (Hfreep _ Hj). }
    destruct (arp_rx_insert_binding message t2 st1 j e1 Hok1 Hj1 Hu1) as (i & Hfs & Hins').
    rewrite Hins in Hins'. injection Hins' as -> ->.
    eexists i, _. split.
    + simpl. apply list_lookup_insert_eq.
      apply arp_table_freespace_Some in Hfs as (Hi & _). by eapply lookup_lt_Some.
    + done.
Qed.

Lemma arp_rx_request_for_us_witness :
  ∃ st' evs frame,
    arp_rx peer_request host_dev 1001 1001 [] (Some host_netif) 1002 28 fresh
    = Some (st', evs ++ [EvTx (dev_id (netif_dev host_netif)) ETHERNET_TYPE_ARP frame 28
                           (sha (arp_ethernet_cast peer_request))])
    ∧ length frame = 28%nat
    ∧ arp_decode frame
      = {| f_hrd := 1; f_pro := 0x0800; f_hln := 6; f_pln := 4; f_op := 2;
           f_sha := addr (netif_dev host_netif); f_spa := unicast host_netif;
           f_tha := sha (arp_ethernet_cast peer_request);
           f_tpa := spa (arp_ethernet_cast peer_request) |}
    ∧ ∃ i e', arp_table st' !! i = Some e' ∧ used e' = true
              ∧ pa e' = spa (arp_ethernet_cast peer_request)
              ∧ ha e' = sha (arp_ethernet_cast peer_request).
Proof.
  destruct (arp_rx_request_for_us peer_request host_dev 1001 1001 [] host_netif 1002 28 fresh)
    as (st' & evs & frame & Hrx & Hlen & Hdec & Hbind).
  - apply reachable_init.
  - simpl. lia.
  - reflexivity.
  - reflexivity.
  - reflexivity.
  - reflexivity.
  - reflexivity.
  - reflexivity.
  - exists st', evs, frame. split_and!; [done | done | done |].
    apply Hbind; [reflexivity|].
    exists 0%nat, arp_entry_zero. split; [reflexivity | by left].
Defined.

(** Membership of an event in an output built with [::] and [++]. *)
Ltac event_in :=
  solve [ assumption
        | apply list_elem_of_here
        | apply list_elem_of_further; event_in
        | apply elem_of_app; left; event_in
        | apply elem_of_app; right; event_in ].

(** X20: [arp_rx] evicts what has expired.  When a well-formed message
    arrives on a reachable cache more than 10 seconds after the last
    patrol, [arp_rx] runs the patrol with the global [timestamp] set to
    the time read: a used entry whose time stamp is more than 300 seconds
    back is cleared and its condition is broadcast, whatever other threads
    do between the two locked parts.  If no other thread runs between the
    two locked parts, then when [arp_rx] returns the global [timestamp]
    is the time read and that slot is as in static storage, or it holds
    the binding of the message's sender that [arp_rx] has just
    inserted. *)
Theorem arp_rx_evicts_stale (packet : list byte) (dev : netdev) (now t1 : time_t)
    (others : list action) (nif : option netif_ip) (t2 : time_t) (txr : Z)
    (st : arp_state) (i : nat) (e : arp_entry) :
  reachable st →
  (28 ≤ length packet)%nat →
  ntoh16 (hrd (hdr (arp_ethernet_cast packet))) = 1 →
  ntoh16 (pro (hdr (arp_ethernet_cast packet))) = 0x0800 →
  byte_to_Z (hln (hdr (arp_ethernet_cast packet))) = 6 →
  byte_to_Z (pln (hdr (arp_ethernet_cast packet))) = 4 →
  now - arp_timestamp st > 10 →
  arp_table st !! i = Some e → used e = true →
  now - timestamp e > ARP_TABLE_TIMEOUT_SEC →
  ∃ st' evs,
    arp_rx packet dev now t1 others nif t2 txr st = Some (st', evs)
    ∧ EvPatrol now ∈ evs ∧ EvBroadcast i ∈ evs
    ∧ (others = [] →
       arp_timestamp st' = now
       ∧ (arp_table st' !! i = Some arp_entry_zero
          ∨ arp_table st' !! i
            = Some {| used := true; pa := spa (arp_ethernet_cast packet);
                      ha := sha (arp_ethernet_cast packet); timestamp := t2;
                      data := None; len := 0%N; netif := None |})).
Proof.
  intros Hst Hlen Hhrd Hpro Hhln Hpln Hsweep Hi Hu Hold. apply reachable_ok in Hst.
  rewrite arp_rx_valid by done.
  remember (arp_ethernet_cast packet) as message eqn:Hmessage. clear Hmessage.
  destruct (arp_rx_update_ok message dev now t1 st Hst) as (st1 & ev1 & merge & Hupd & Hok1).
  pose proof (arp_rx_update_cases _ _ _ _ _ _ _ _ Hupd)
    as (tblp & evp & ev2 & r & Hp & Hu2 & Hm & ->).
  rewrite Hupd. cbn [mbind option_bind].
  assert ((now - arp_timestamp st >? 10) = true) as Hgt by (apply Z.gtb_lt; lia).
  rewrite Hgt in Hp. destruct Hp as (-> & -> & Hts1).
  destruct (arp_table_patrol_from_broadcasts now 0 (arp_table st) i e Hi Hu Hold)
    as [_ Hbc].
  assert (arp_table st1 !! i = Some arp_entry_zero) as Hi1.
  { apply (arp_table_update_unused _ _ _ _ _ _ _ _ i arp_entry_zero Hu2); [|done].
    rewrite list_lookup_fmap, Hi. simpl. unfold patrol_entry.
    assert ((now - timestamp e >? ARP_TABLE_TIMEOUT_SEC) = true) as ->
      by (apply Z.gtb_lt; lia).
    rewrite Hu. simpl. f_equal. apply arp_entry_clear_zero.
    by apply (table_ok_lookup _ _ _ Hst Hi). }
  simpl in Hbc.
  destruct nif as [n|];
    [|eexists _, _; split; [reflexivity|];
      split_and!; [event_in | event_in | intros _; split; [done | by left]]].
  destruct (bool_decide _);
    [|eexists _, _; split; [reflexivity|];
      split_and!; [event_in | event_in | intros _; split; [done | by left]]].
  destruct merge.
  - eexists _, _. split; [reflexivity|].
    split_and!; [event_in | event_in | intros _; split; [done | by left]].
  - destruct (run_actions_ok others st1 Hok1) as (st2 & evo & Hrun & Hok2).
    rewrite Hrun. cbn [mbind option_bind].
    destruct (arp_rx_insert message t2 st2) as [st3 ev3] eqn:Hins.
    cbn [mbind option_bind].
    eexists _, _. split; [reflexivity|].
    split_and!; [event_in | event_in |].
    intros ->. simpl in Hrun. injection Hrun as <- <-.
    destruct (arp_rx_insert_binding message t2 st1 i _ Hok1 Hi1 eq_refl) as (k & Hfs & Hins').
    rewrite Hins in Hins'. injection Hins' as -> ->.
    split; [done|].
    simpl. destruct (decide (k = i)) as [->|Hne].
    + right. apply list_lookup_insert_eq. by eapply lookup_lt_Some.
    + left. by rewrite list_lookup_insert_ne.
Qed.

Lemma reachable_resolved : reachable resolved.
Proof.
  exists 1000, [ActRxInsert (arp_ethernet_cast peer_request) 1002], ([EvBroadcast 0] ++ []).
  vm_compute. reflexivity.
Defined.

Lemma arp_rx_evicts_stale_witness :
  ∃ st' evs,
    arp_rx third_request host_dev 1400 1400 [] (Some host_netif) 1400 28 resolved
    = Some (st', evs)
    ∧ EvPatrol 1400 ∈ evs ∧ EvBroadcast 0 ∈ evs
    ∧ arp_timestamp st' = 1400
    ∧ (arp_table st' !! 0%nat = Some arp_entry_zero
       ∨ arp_table st' !! 0%nat
         = Some {| used := true; pa := spa (arp_ethernet_cast third_request);
                   ha := sha (arp_ethernet_cast third_request); timestamp := 1400;
                   data := None; len := 0%N; netif := None |}).
Proof.
  destruct (arp_rx_evicts_stale third_request host_dev 1400 1400 [] (Some host_netif)
              1400 28 resolved 0%nat (peer_known_entry 1002))
    as (st' & evs & Hrx & Hpatrol & Hbc & Hstate).
  - exact reachable_resolved.
  - simpl. lia.
  - reflexivity.
  - reflexivity.
  - reflexivity.
  - reflexivity.
  - simpl. lia.
  - reflexivity.
  - reflexivity.
  - unfold ARP_TABLE_TIMEOUT_SEC. simpl. lia.
  - exists st', evs. destruct (Hstate eq_refl) as [Hts Hslot].
    split_and!; done.
Defined.

(** ** Invariants of the reachable cache *)

(** X21: in every reachable cache (after any sequence of the locked parts
    of [arp_rx] and [arp_resolve], in any interleaving), a slot that is
    not used is as in static storage: address, link address and time
    stamp zero, no payload, length 0, no interface.  So a payload or an
    interface is held only by used slots, and an entry without payload
    has length 0. *)
Theorem reachable_unused_zero (st : arp_state) (i : nat) (e : arp_entry) :
  reachable st →
  arp_table st !! i = Some e →
  (used e = false → e = arp_entry_zero)
  ∧ (data e ≠ None ∨ netif e ≠ None → used e = true)
  ∧ (data e = None → len e = 0%N).
Proof.
  intros Hst Hi. apply reachable_ok in Hst.
  destruct (table_ok_lookup _ _ _ Hst Hi) as (Hz & Hlen & _).
  split_and!; [done | | done].
  intros Hheld. destruct (used e) eqn:Hu; [done|].
  rewrite (Hz eq_refl) in Hheld. by destruct Hheld as [H|H]; destruct H.
Qed.

Lemma reachable_unused_zero_witness :
  (used (peer_pending_entry 1001) = false → peer_pending_entry 1001 = arp_entry_zero)
  ∧ (data (peer_pending_entry 1001) ≠ None ∨ netif (peer_pending_entry 1001) ≠ None →
     used (peer_pending_entry 1001) = true)
  ∧ (data (peer_pending_entry 1001) = None → len (peer_pending_entry 1001) = 0%N).
Proof.
  apply (reachable_unused_zero pending 0%nat (peer_pending_entry 1001)).
  - exact reachable_pending.
  - reflexivity.
Defined.

(** X22: the table keeps its 4096 slots: every reachable cache has
    [ARP_TABLE_SIZE] entries, and [arp_rx] and [arp_resolve] lead from
    reachable caches to reachable caches, so the scans of
    [arp_table_freespace] and [arp_table_select] always run over exactly
    4096 slots. *)
Theorem reachable_table_size (st : arp_state) :
  reachable st →
  length (arp_table st) = 4096%nat
  ∧ (∀ packet dev now t1 others nif t2 txr st' evs,
       arp_rx packet dev now t1 others nif t2 txr st = Some (st', evs) →
       reachable st' ∧ length (arp_table st') = 4096%nat)
  ∧ (∀ nif p buf size malloc_ok t txr w st' evs code out,
       arp_resolve nif p buf size malloc_ok t txr w st = Some (st', evs, code, out) →
       reachable st' ∧ length (arp_table st') = 4096%nat).
Proof.
  intros Hst. split_and!.
  - by apply reachable_length.
  - intros packet dev now t1 others nif t2 txr st' evs Hrx.
    pose proof (arp_rx_reachable _ _ _ _ _ _ _ _ _ _ _ Hst Hrx) as Hst'.
    split; [done | by apply reachable_length].
  - intros nif p buf size ok t txr w st' evs code out Hres.
    pose proof (arp_resolve_reachable _ _ _ _ _ _ _ _ _ _ _ _ _ Hst Hres) as Hst'.
    split; [done | by apply reachable_length].
Qed.

Lemma reachable_table_size_witness :
  length (arp_table pending) = 4096%nat
  ∧ (∀ packet dev now t1 others nif t2 txr st' evs,
       arp_rx packet dev now t1 others nif t2 txr pending = Some (st', evs) →
       reachable st' ∧ length (arp_table st') = 4096%nat)
  ∧ (∀ nif p buf size malloc_ok t txr w st' evs code out,
       arp_resolve nif p buf size malloc_ok t txr w pending = Some (st', evs, code, out) →
       reachable st' ∧ length (arp_table st') = 4096%nat).
Proof.
  exact (reachable_table_size pending reachable_pending).
Defined.

(** X23: on a reachable cache neither [arp_rx] nor [arp_resolve] ever
    dereferences a NULL [netif]: both run to their return, whatever the
    packet, the arguments, the clock, and whatever other threads do while
    the mutex is released. *)
Theorem arp_interfaces_never_fault (st : arp_state) :
  reachable st →
  (∀ packet dev now t1 others nif t2 txr,
     ∃ st' evs, arp_rx packet dev now t1 others nif t2 txr st = Some (st', evs))
  ∧ (∀ nif p buf size malloc_ok t txr w,
       ∃ st' evs code out,
         arp_resolve nif p buf size malloc_ok t txr w st = Some (st', evs, code, out)).
Proof.
  intros Hst. apply reachable_ok in Hst. split.
  - intros packet dev now t1 others nif t2 txr. unfold arp_rx.
    repeat (match goal with |- context [if ?c then Some (st, []) else _] => destruct c end;
            [by eexists _, _|]).
    destruct (arp_rx_update_ok (arp_ethernet_cast packet) dev now t1 st Hst)
      as (st1 & ev1 & merge & -> & Hok1).
    simpl. destruct nif as [n|]; [|by eexists _, _].
    destruct (bool_decide _); [|by eexists _, _].
    destruct merge; simpl; [by eexists _, _|].
    destruct (run_actions_ok others st1 Hok1) as (st2 & ev2 & -> & _). simpl.
    destruct (arp_rx_insert _ t2 st2). by eexists _, _.
  - intros nif p buf size ok t txr w. unfold arp_resolve.
    pose proof (arp_resolve_enter_ok nif p buf size ok t txr _ Hst) as Hok1.
    destruct (arp_resolve_enter _ _ _ _ _ _ _ _) as [[tbl1 ev1] r]. simpl in Hok1.
    destruct r as [c o|i]; [by eexists _, _, _, _|].
    destruct (run_actions_ok (concat (interrupted w) ++ woken_after w)
                (with_table st tbl1) Hok1) as (st2 & ev2 & -> & _).
    simpl. destruct (arp_resolve_wake _ _ _) as [[tbl3 c] o]. by eexists _, _, _, _.
Qed.

Lemma arp_interfaces_never_fault_witness :
  (∀ packet dev now t1 others nif t2 txr,
     ∃ st' evs, arp_rx packet dev now t1 others nif t2 txr pending = Some (st', evs))
  ∧ (∀ nif p buf size malloc_ok t txr w,
       ∃ st' evs code out,
         arp_resolve nif p buf size malloc_ok t txr w pending = Some (st', evs, code, out)).
Proof.
  exact (arp_interfaces_never_fault pending reachable_pending).
Defined.

(** X24: one used entry per address, as long as no Insert of [arp_rx] runs
    in a window.  A call of [arp_rx] with no other thread between its two
    locked parts keeps the used entry of every address unique, and so does
    a call of [arp_resolve] whatever other threads do during its wait,
    provided none of them runs the Insert of an [arp_rx]. *)
Theorem unique_pa_kept (st : arp_state) :
  unique_pa (arp_table st) →
  (∀ packet dev now t1 nif t2 txr st' evs,
     arp_rx packet dev now t1 [] nif t2 txr st = Some (st', evs) →
     unique_pa (arp_table st'))
  ∧ (∀ nif p buf size malloc_ok t txr w st' evs code out,
       Forall not_insert (concat (interrupted w) ++ woken_after w) →
       arp_resolve nif p buf size malloc_ok t txr w st = Some (st', evs, code, out) →
       unique_pa (arp_table st')).
Proof.
  intros Huniq. split.
  - intros packet dev now t1 nif t2 txr st' evs Hrx.
    by apply (arp_rx_alone_unique _ _ _ _ _ _ _ _ _ _ Hrx).
  - intros nif p buf size ok t txr w st' evs code out Hni Hres.
    by apply (arp_resolve_unique _ _ _ _ _ _ _ _ _ _ _ _ _ Hni Hres).
Qed.

Lemma unique_pa_fresh : unique_pa (arp_table fresh).
Proof.
  intros i j ei ej Hi Hj Hu. apply lookup_replicate in Hi as [-> _]. discriminate Hu.
Defined.

Lemma unique_pa_kept_witness :
  (∀ packet dev now t1 nif t2 txr st' evs,
     arp_rx packet dev now t1 [] nif t2 txr fresh = Some (st', evs) →
     unique_pa (arp_table st'))
  ∧ (∀ nif p buf size malloc_ok t txr w st' evs code out,
       Forall not_insert (concat (interrupted w) ++ woken_after w) →
       arp_resolve nif p buf size malloc_ok t txr w fresh = Some (st', evs, code, out) →
       unique_pa (arp_table st')).
Proof.
  exact (unique_pa_kept fresh unique_pa_fresh).
Defined.

(** X25: evicted while waited on.  A caller of [arp_resolve] on a
    reachable cache waits on the slot of an entry with an all-zero [ha].
    Whatever other threads do first during the wait, suppose the last
    locked section that runs before the caller wakes is the first locked
    part of an [arp_rx] that runs the patrol (more than 10 seconds after
    the last one) at a moment when the slot waited on holds a used entry
    more than 300 seconds old.  Then that entry is cleared and its
    condition broadcast, and the caller, whether its wait returns 0 or
    ETIMEDOUT, returns ERROR and finds the slot as in static storage. *)
Theorem arp_resolve_wait_evicted (nif : netif_ip) (p : ip_addr_t) (buf : option (list byte))
    (size : N) (malloc_ok : bool) (t : time_t) (txr : Z) (w : wait_trace)
    (before : list action) (message : arp_ethernet) (dev : netdev) (now t1 : time_t)
    (st stm : arp_state) (evm : list event) (i : nat) (entry entrym : arp_entry) :
  reachable st →
  arp_table_select p (arp_table st) = Some (i, entry) →
  ha entry = ETHERNET_ADDR_ANY →
  concat (interrupted w) ++ woken_after w = before ++ [ActRxUpdate message dev now t1] →
  run_actions before st = Some (stm, evm) →
  arp_table stm !! i = Some entrym → used entrym = true →
  now - arp_timestamp stm > 10 →
  now - timestamp entrym > ARP_TABLE_TIMEOUT_SEC →
  ∃ st' evs,
    arp_resolve nif p buf size malloc_ok t txr w st
    = Some (st', (arp_send_request nif p txr).1 ++ evm ++ evs, ARP_RESOLVE_ERROR, None)
    ∧ EvBroadcast i ∈ evs
    ∧ arp_table st' !! i = Some arp_entry_zero.
Proof.
  intros Hst Hsel Hha Hw Hbefore Hi Hu Hsweep Hold.
  pose proof (reachable_ok _ (reachable_run _ _ _ _ Hst Hbefore)) as Hokm.
  destruct (arp_rx_update_ok message dev now t1 stm Hokm)
    as (st1 & ev1 & merge & Hupd & Hok1).
  pose proof (arp_rx_update_cases _ _ _ _ _ _ _ _ Hupd)
    as (tblp & evp & ev2 & r & Hcase & Hu2 & Hm & ->).
  assert ((now - arp_timestamp stm >? 10) = true) as Hgt by (apply Z.gtb_lt; lia).
  rewrite Hgt in Hcase. destruct Hcase as (-> & -> & Hts1).
  destruct (arp_table_patrol_from_broadcasts now 0 (arp_table stm) i entrym Hi Hu Hold)
    as [_ Hbc]. simpl in Hbc.
  assert (arp_table st1 !! i = Some arp_entry_zero) as Hi1.
  { apply (arp_table_update_unused _ _ _ _ _ _ _ _ i arp_entry_zero Hu2); [|done].
    rewrite list_lookup_fmap, Hi. simpl. unfold patrol_entry.
    assert ((now - timestamp entrym >? ARP_TABLE_TIMEOUT_SEC) = true) as ->
      by (apply Z.gtb_lt; lia).
    rewrite Hu. simpl. f_equal. apply arp_entry_clear_zero.
    by apply (table_ok_lookup _ _ _ Hokm Hi). }
  rewrite (arp_resolve_waits _ _ _ _ _ _ _ _ _ _ _ Hsel Hha), Hw.
  rewrite (run_actions_snoc _ _ _ _ _ Hbefore).
  cbn [run_action mbind option_bind]. rewrite Hupd. cbn [mbind option_bind].
  unfold arp_resolve_wake. rewrite Hi1. simpl.
  eexists _, _. split; [reflexivity|]. split; [event_in | done].
Qed.

Lemma arp_resolve_wait_evicted_witness :
  ∃ st' evs,
    arp_resolve host_netif peer_pa None 0 true 1399 28
      {| interrupted := [[]];
         woken_after := [ActRxUpdate (arp_ethernet_cast third_request) host_dev 1400 1400];
         woken_ret := CondWoken |} querying
    = Some (st', (arp_send_request host_netif peer_pa 28).1 ++ [] ++ evs,
            ARP_RESOLVE_ERROR, None)
    ∧ EvBroadcast 0 ∈ evs
    ∧ arp_table st' !! 0%nat = Some arp_entry_zero.
Proof.
  apply (arp_resolve_wait_evicted host_netif peer_pa None 0 true 1399 28
           {| interrupted := [[]];
              woken_after :=
                [ActRxUpdate (arp_ethernet_cast third_request) host_dev 1400 1400];
              woken_ret := CondWoken |}
           [] (arp_ethernet_cast third_request) host_dev 1400 1400 querying querying []
           0%nat (peer_query_entry 1001) (peer_query_entry 1001)).
  - exact reachable_querying.
  - vm_compute. reflexivity.
  - reflexivity.
  - reflexivity.
  - reflexivity.
  - reflexivity.
  - reflexivity.
  - simpl. lia.
  - unfold ARP_TABLE_TIMEOUT_SEC. simpl. lia.
Defined.
